(** * ingest-car-data/main.py: secret-aware configuration and vehicle ingestion

    A shallow embedding of [src/ingest-car-data/main.py].  Python values are
    an inductive type, strings are sequences of Unicode code points, floats
    are IEEE-754 binary64 (Rocq's primitive floats), and the collaborators of
    the job (file system, secret store, connectivity client, clock, BigQuery)
    are a record of responses.  Effects are threaded through a state and
    error monad whose state is the trace of observable events. *)

From Stdlib Require Import ZArith NArith List Bool Lia.
From Stdlib.Strings Require Import String Ascii Byte.
From Stdlib Require Import DecimalString PrimFloat FloatOps SpecFloat.
Import ListNotations.

Set Warnings "-register-all,-inexact-float".

Local Open Scope string_scope.
Local Open Scope N_scope.
Local Open Scope list_scope.

(** ** Python [str]: sequences of code points *)

Module PyStr.

Definition pystr : Type := list N.

(** An ASCII literal of the source as a [pystr]. *)
Definition lit (s : string) : pystr :=
  List.map N_of_ascii (list_ascii_of_string s).

Definition eqb (a b : pystr) : bool :=
  if list_eq_dec N.eq_dec a b then true else false.

(** [s.startswith(p)] *)
Fixpoint startswith (p s : pystr) : bool :=
  match p, s with
  | [], _ => true
  | _ :: _, [] => false
  | c :: p', d :: s' => (c =? d) && startswith p' s'
  end.

(** [sub in s] for strings: substring test. *)
Fixpoint contains (sub s : pystr) : bool :=
  startswith sub s ||
  match s with
  | [] => false
  | _ :: s' => contains sub s'
  end.

(** [s.split(sep, 1)] for a one-character separator: the text before the
    first separator and the text after it, or [s] alone when there is none. *)
Fixpoint split1 (sep : N) (s : pystr) : list pystr :=
  match s with
  | [] => [[]]
  | c :: s' =>
      if c =? sep then [[]; s']
      else match split1 sep s' with
           | hd :: tl => (c :: hd) :: tl
           | [] => [[c]]
           end
  end.

(** [str.isspace] on one code point (the white-space set of CPython). *)
Definition isspace (c : N) : bool :=
  ((0x09 <=? c) && (c <=? 0x0D)) || ((0x1C <=? c) && (c <=? 0x20))
  || (c =? 0x85) || (c =? 0xA0) || (c =? 0x1680)
  || ((0x2000 <=? c) && (c <=? 0x200A))
  || (c =? 0x2028) || (c =? 0x2029) || (c =? 0x202F) || (c =? 0x205F)
  || (c =? 0x3000).

Fixpoint lstrip (s : pystr) : pystr :=
  match s with
  | c :: s' => if isspace c then lstrip s' else s
  | [] => []
  end.

Definition rstrip (s : pystr) : pystr := rev (lstrip (rev s)).

(** [s.strip()] *)
Definition strip (s : pystr) : pystr := rstrip (lstrip s).

(** [str(n)] for a natural number. *)
Definition of_N (n : N) : pystr := lit (NilZero.string_of_uint (N.to_uint n)).

(** [f"{b:02x}"] for a byte. *)
Definition hex_digit (n : N) : N := if n <? 10 then 48 + n else 87 + n.

Definition hex2 (b : N) : pystr := [hex_digit (b / 16); hex_digit (b mod 16)].

(** The [w] low decimal digits of [n], most significant first
    (the zero-padded fields of [isoformat]). *)
Fixpoint zpad (w : nat) (n : N) : pystr :=
  match w with
  | O => []
  | S w' => zpad w' (n / 10) ++ [48 + n mod 10]
  end.

End PyStr.
Export PyStr.

(** ** [bytes.decode("UTF-8")], strict *)

Module Utf8.

Definition is_cont (b : N) : bool := (0x80 <=? b) && (b <=? 0xBF).

Definition is_surrogate (c : N) : bool := (0xD800 <=? c) && (c <=? 0xDFFF).

(** Code points of a well-formed UTF-8 byte sequence; [None] is Python's
    [UnicodeDecodeError] (stray or missing continuation byte, overlong form,
    surrogate, or value above U+10FFFF). *)
Fixpoint decode_N (bs : list N) : option pystr :=
  match bs with
  | [] => Some []
  | b0 :: r0 =>
      if b0 <? 0x80 then option_map (cons b0) (decode_N r0)
      else if (0xC0 <=? b0) && (b0 <=? 0xDF) then
        match r0 with
        | b1 :: r1 =>
            let c := (b0 mod 0x20) * 0x40 + b1 mod 0x40 in
            if is_cont b1 && (0x80 <=? c)
            then option_map (cons c) (decode_N r1) else None
        | _ => None
        end
      else if (0xE0 <=? b0) && (b0 <=? 0xEF) then
        match r0 with
        | b1 :: b2 :: r2 =>
            let c := (b0 mod 0x10) * 0x1000 + (b1 mod 0x40) * 0x40 + b2 mod 0x40 in
            if is_cont b1 && is_cont b2 && (0x800 <=? c) && negb (is_surrogate c)
            then option_map (cons c) (decode_N r2) else None
        | _ => None
        end
      else if (0xF0 <=? b0) && (b0 <=? 0xF7) then
        match r0 with
        | b1 :: b2 :: b3 :: r3 =>
            let c := (b0 mod 0x08) * 0x40000 + (b1 mod 0x40) * 0x1000
                     + (b2 mod 0x40) * 0x40 + b3 mod 0x40 in
            if is_cont b1 && is_cont b2 && is_cont b3
               && (0x10000 <=? c) && (c <=? 0x10FFFF)
            then option_map (cons c) (decode_N r3) else None
        | _ => None
        end
      else None
  end.

Definition decode (data : list byte) : option pystr :=
  decode_N (List.map Byte.to_N data).

(** What CPython's decoder reports when it stops: the offending bytes
    [start, stop) and one of three reasons. *)
Inductive reason : Type := InvalidStart | InvalidContinuation | UnexpectedEnd.

Definition reason_text (why : reason) : string :=
  match why with
  | InvalidStart => "invalid start byte"
  | InvalidContinuation => "invalid continuation byte"
  | UnexpectedEnd => "unexpected end of data"
  end.

(** The byte [b1] cannot follow the lead byte [b0] of a three-byte sequence
    (no continuation byte, overlong form, or surrogate). *)
Definition bad_second3 (b0 b1 : N) : bool :=
  negb (is_cont b1) || (if b1 <? 0xA0 then b0 =? 0xE0 else b0 =? 0xED).

(** The same for a four-byte sequence (no continuation byte, overlong form,
    or value above U+10FFFF). *)
Definition bad_second4 (b0 b1 : N) : bool :=
  negb (is_cont b1) || (if b1 <? 0x90 then b0 =? 0xF0 else b0 =? 0xF4).

(** The first error of the byte sequence [bs], which starts at offset
    [pos] of the data; [None] when it is well formed. *)
Fixpoint error_N (pos : N) (bs : list N) : option (N * N * reason) :=
  match bs with
  | [] => None
  | b0 :: r0 =>
      if b0 <? 0x80 then error_N (pos + 1) r0
      else if b0 <? 0xC2 then Some (pos, pos + 1, InvalidStart)
      else if b0 <? 0xE0 then
        match r0 with
        | [] => Some (pos, pos + 1, UnexpectedEnd)
        | b1 :: r1 =>
            if is_cont b1 then error_N (pos + 2) r1
            else Some (pos, pos + 1, InvalidContinuation)
        end
      else if b0 <? 0xF0 then
        match r0 with
        | [] => Some (pos, pos + 1, UnexpectedEnd)
        | b1 :: r1 =>
            if bad_second3 b0 b1 then Some (pos, pos + 1, InvalidContinuation)
            else
              match r1 with
              | [] => Some (pos, pos + 2, UnexpectedEnd)
              | b2 :: r2 =>
                  if is_cont b2 then error_N (pos + 3) r2
                  else Some (pos, pos + 2, InvalidContinuation)
              end
        end
      else if b0 <? 0xF5 then
        match r0 with
        | [] => Some (pos, pos + 1, UnexpectedEnd)
        | b1 :: r1 =>
            if bad_second4 b0 b1 then Some (pos, pos + 1, InvalidContinuation)
            else
              match r1 with
              | [] => Some (pos, pos + 2, UnexpectedEnd)
              | b2 :: r2 =>
                  if is_cont b2 then
                    match r2 with
                    | [] => Some (pos, pos + 3, UnexpectedEnd)
                    | b3 :: r3 =>
                        if is_cont b3 then error_N (pos + 4) r3
                        else Some (pos, pos + 3, InvalidContinuation)
                    end
                  else Some (pos, pos + 2, InvalidContinuation)
              end
        end
      else Some (pos, pos + 1, InvalidStart)
  end.

Definition error (data : list byte) : option (N * N * reason) :=
  error_N 0 (List.map Byte.to_N data).

(** [str(e)] of the [UnicodeDecodeError] for [data]. *)
Definition error_text (data : list byte) : pystr :=
  match error data with
  | Some (start, stop, why) =>
      lit "'utf-8' codec can't decode "
      ++ (if stop =? start + 1
          then lit "byte 0x"
               ++ hex2 (nth (N.to_nat start) (List.map Byte.to_N data) 0)
               ++ lit " in position " ++ of_N start
          else lit "bytes in position " ++ of_N start ++ lit "-" ++ of_N (stop - 1))
      ++ lit ": " ++ lit (reason_text why)
  | None => []
  end.

(** The bytes of an ASCII literal (for examples). *)
Definition bytes_of (s : string) : list byte := list_byte_of_string s.

End Utf8.

(** ** Python values *)

Inductive pyval : Type :=
| PNone
| PBool (b : bool)
| PInt (z : Z)
| PFloat (f : float)
| PStr (s : pystr)
| PList (l : list pyval)
| PDict (d : list (pystr * pyval))      (* insertion-ordered, keys are [str] *)
| PObj (cls : string) (attrs : list (string * pyval)).
                                        (* an instance of the class [cls] *)

(** A dict is its items in insertion order.  Python keeps keys unique; the
    operations below act on the first entry of a key, and the theorems that
    need uniqueness ask for [NoDup] of the keys. *)
Definition dict : Type := list (pystr * pyval).

Fixpoint dict_get (k : pystr) (d : dict) : option pyval :=
  match d with
  | [] => None
  | (k', v) :: d' => if PyStr.eqb k k' then Some v else dict_get k d'
  end.

(** [d[k] = v] for a key already present (the only assignment the source
    makes); a new key is appended. *)
Fixpoint dict_set (k : pystr) (v : pyval) (d : dict) : dict :=
  match d with
  | [] => [(k, v)]
  | (k', v') :: d' =>
      if PyStr.eqb k k' then (k', v) :: d' else (k', v') :: dict_set k v d'
  end.

Definition keys (d : dict) : list pystr := List.map fst d.

(** ** Exceptions *)

(** An exception object: [type(e).__name__], [str(e)], and whether its class
    derives from [Exception] (as opposed to [BaseException] only, such as
    [KeyboardInterrupt] or [SystemExit]). *)
Record exn : Type := mkExn {
  exn_type : string;
  exn_text : pystr;
  exn_is_Exception : bool
}.

Inductive result (A : Type) : Type :=
| Ok (a : A)
| Raise (e : exn).
Arguments Ok {A} a.
Arguments Raise {A} e.

Module Res.

Definition bind {A B} (m : result A) (k : A -> result B) : result B :=
  match m with
  | Ok a => k a
  | Raise e => Raise e
  end.

End Res.

Declare Scope res_scope.
Delimit Scope res_scope with res.
Bind Scope res_scope with result.
Notation "x <- m ;; k" := (Res.bind m (fun x => k))
  (at level 61, m at next level, right associativity) : res_scope.

(** The name CPython prints for the type of a value in its error messages. *)
Definition type_name (v : pyval) : string :=
  match v with
  | PNone => "NoneType"
  | PBool _ => "bool"
  | PInt _ => "int"
  | PFloat _ => "float"
  | PStr _ => "str"
  | PList _ => "list"
  | PDict _ => "dict"
  | PObj cls _ => cls
  end.

(** Exceptions raised by the interpreter itself, with the message texts of
    CPython 3.11. *)
Definition builtin_exn (cls : string) (text : pystr) : exn :=
  mkExn cls text true.

Definition quoted (s : string) : pystr := lit "'" ++ lit s ++ lit "'".

Definition TypeError (text : pystr) : exn := builtin_exn "TypeError" text.

Definition AttributeError (v : pyval) (name : string) : exn :=
  builtin_exn "AttributeError"
    (quoted (type_name v) ++ lit " object has no attribute " ++ quoted name).

(** [str(e)] is [repr(k)]; the keys the source subscripts with are plain
    literals, whose [repr] is the text between single quotes. *)
Definition KeyError (k : pystr) : exn :=
  builtin_exn "KeyError" (lit "'" ++ k ++ lit "'").

Definition IndexError : exn :=
  builtin_exn "IndexError" (lit "list index out of range").

Definition UnicodeDecodeError (data : list byte) : exn :=
  builtin_exn "UnicodeDecodeError" (Utf8.error_text data).

Definition OverflowError : exn :=
  builtin_exn "OverflowError" (lit "int too large to convert to float").

(** ** Operators of the language used by the source *)

(** [bool(v)].  Instances of library classes are truthy (no [__bool__] or
    [__len__] is assumed on them). *)
Definition truthy (v : pyval) : bool :=
  match v with
  | PNone => false
  | PBool b => b
  | PInt z => negb (z =? 0)%Z
  | PFloat f => negb (PrimFloat.eqb f 0%float)
  | PStr s => match s with [] => false | _ => true end
  | PList l => match l with [] => false | _ => true end
  | PDict d => match d with [] => false | _ => true end
  | PObj _ _ => true
  end.

(** [k in v] for a [str] [k]. *)
Definition py_in (k : pystr) (v : pyval) : result bool :=
  match v with
  | PDict d => Ok (match dict_get k d with Some _ => true | None => false end)
  | PList l =>
      Ok (existsb (fun x => match x with PStr s => PyStr.eqb s k | _ => false end) l)
  | PStr s => Ok (contains k s)
  | _ => Raise (TypeError (lit "argument of type " ++ quoted (type_name v)
                           ++ lit " is not iterable"))
  end.

(** [v[k]] for a [str] [k]. *)
Definition getitem (v : pyval) (k : pystr) : result pyval :=
  match v with
  | PDict d =>
      match dict_get k d with
      | Some x => Ok x
      | None => Raise (KeyError k)
      end
  | PList _ => Raise (TypeError (lit "list indices must be integers or slices, not str"))
  | PStr _ => Raise (TypeError (lit "string indices must be integers, not 'str'"))
  | _ => Raise (TypeError (quoted (type_name v) ++ lit " object is not subscriptable"))
  end.

(** [l[i]] on a list of strings (the result of [split]). *)
Definition index {A} (l : list A) (i : nat) : result A :=
  match nth_error l i with
  | Some x => Ok x
  | None => Raise IndexError
  end.

(** The elements [for x in v] visits. *)
Definition py_iter (v : pyval) : result (list pyval) :=
  match v with
  | PList l => Ok l
  | PDict d => Ok (List.map (fun kv => PStr (fst kv)) d)
  | PStr s => Ok (List.map (fun c => PStr [c]) s)
  | _ => Raise (TypeError (quoted (type_name v) ++ lit " object is not iterable"))
  end.

(** [v.items()] *)
Definition items (v : pyval) : result dict :=
  match v with
  | PDict d => Ok d
  | _ => Raise (AttributeError v "items")
  end.

(** [v.name] *)
Definition getattr (v : pyval) (name : string) : result pyval :=
  match v with
  | PObj _ attrs =>
      match find (fun a => String.eqb (fst a) name) attrs with
      | Some a => Ok (snd a)
      | None => Raise (AttributeError v name)
      end
  | _ => Raise (AttributeError v name)
  end.

(** [v.name()] for a getter without arguments: the object stores under
    [name] the value the call returns. *)
Definition call0 (v : pyval) (name : string) : result pyval := getattr v name.

(** [float(z)] for an [int]: the nearest binary64 (ties to even), or
    [OverflowError]. *)
Definition float_of_int (z : Z) : result float :=
  match binary_normalize prec emax z 0 false with
  | S754_infinity _ => Raise OverflowError
  | sf => Ok (SF2Prim sf)
  end.

(** [v - c] for a [float] constant [c]. *)
Definition sub_float (v : pyval) (c : float) : result pyval :=
  match v with
  | PFloat f => Ok (PFloat (PrimFloat.sub f c))
  | PInt z => Res.bind (float_of_int z) (fun f => Ok (PFloat (PrimFloat.sub f c)))
  | PBool b =>
      Res.bind (float_of_int (if b then 1 else 0))
               (fun f => Ok (PFloat (PrimFloat.sub f c)))
  | _ => Raise (TypeError (lit "unsupported operand type(s) for -: "
                           ++ quoted (type_name v) ++ lit " and 'float'"))
  end.

(** Whether [json.dumps] accepts the value (it raises [TypeError] on an
    object it cannot serialise). *)
Fixpoint json_serializable (v : pyval) : bool :=
  match v with
  | PList l => forallb json_serializable l
  | PDict d => forallb (fun kv => json_serializable (snd kv)) d
  | PObj _ _ => false
  | _ => true
  end.

(** JSON data: what the body of a JSON response parses to. *)
Definition json : Type := {v : pyval | json_serializable v = true}.

Definition json_value (j : json) : pyval := proj1_sig j.

(** ** The collaborators and the observable events of a run *)

(** [datetime.datetime] in UTC. *)
Record datetime : Type := mkDatetime {
  year : N; month : N; day : N;
  hour : N; minute : N; second : N; microsecond : N
}.

(** [dt.isoformat()] for a datetime whose [tzinfo] is [timezone.utc]. *)
Definition isoformat (dt : datetime) : pystr :=
  zpad 4 (year dt) ++ lit "-" ++ zpad 2 (month dt) ++ lit "-" ++ zpad 2 (day dt)
  ++ lit "T" ++ zpad 2 (hour dt) ++ lit ":" ++ zpad 2 (minute dt)
  ++ lit ":" ++ zpad 2 (second dt)
  ++ (if microsecond dt =? 0 then [] else lit "." ++ zpad 6 (microsecond dt))
  ++ lit "+00:00".

(** A line written by [print]: plain text, or the rendering by [json.dumps]
    of a value (kept as the value). *)
Inductive output : Type :=
| Text (s : pystr)
| Json (v : pyval).

Inductive event : Type :=
| Print (line : output)
| LoadJson (path : pystr)
| AccessSecretVersion (name : pystr)
| NewCarConnectivity (config : pyval)
| FetchAll
| GetGarage
| ListVehicles
| Now
| InsertRowsJson (table_id : pystr) (rows : list pyval).

Definition trace : Type := list event.

(** [garage.list_vehicles()] *)
Record Garage : Type := mkGarage {
  list_vehicles : result (list pyval)
}.

(** The [CarConnectivity] instance: [cc.fetch_all()], [cc.get_garage()]. *)
Record Client : Type := mkClient {
  fetch_all : result unit;
  get_garage : result (option Garage)
}.

(** What the outside world answers during one invocation. *)
Record World : Type := mkWorld {
  (** [os.environ.get('GCP_PROJECT')] *)
  PROJECT_ID : option pystr;
  (** [open(path, 'r')] followed by [json.load] *)
  json_load : pystr -> result pyval;
  (** [secret_client.access_secret_version(request={"name": name})],
      giving [response.payload.data] *)
  access_secret_version : pystr -> result (list byte);
  (** [CarConnectivity(config=config)] *)
  CarConnectivity : pyval -> result Client;
  (** [datetime.datetime.now(datetime.timezone.utc)] at the n-th reading of
      the clock *)
  utcnow : nat -> datetime;
  (** [bq_client.insert_rows_json(table_id, rows)]: the row errors of the
      response *)
  insert_rows_json : pystr -> list pyval -> result (list json)
}.

(** ** The monad of the job: errors, and the trace as state *)

Definition M (A : Type) : Type := trace -> result A * trace.

Module IO.

Definition ret {A} (a : A) : M A := fun tr => (Ok a, tr).

Definition bind {A B} (m : M A) (k : A -> M B) : M B :=
  fun tr =>
    match m tr with
    | (Ok a, tr') => k a tr'
    | (Raise e, tr') => (Raise e, tr')
    end.

Definition raise {A} (e : exn) : M A := fun tr => (Raise e, tr).

(** A computation without effects. *)
Definition lift {A} (r : result A) : M A := fun tr => (r, tr).

(** A call to a collaborator: the event is recorded, then the answer given. *)
Definition call {A} (ev : event) (r : result A) : M A :=
  fun tr => (r, tr ++ [ev]).

(** [try: body  except Exception as e: handler e] *)
Definition try_except {A} (body : M A) (handler : exn -> M A) : M A :=
  fun tr =>
    match body tr with
    | (Raise e, tr') =>
        if exn_is_Exception e then handler e tr' else (Raise e, tr')
    | r => r
    end.

Fixpoint foldM {A B} (f : A -> B -> M A) (l : list B) (a : A) : M A :=
  match l with
  | [] => ret a
  | b :: l' => bind (f a b) (foldM f l')
  end.

Fixpoint mapM {A B} (f : A -> M B) (l : list A) : M (list B) :=
  match l with
  | [] => ret []
  | a :: l' => bind (f a) (fun b => bind (mapM f l') (fun bs => ret (b :: bs)))
  end.

End IO.

Declare Scope io_scope.
Delimit Scope io_scope with io.
Bind Scope io_scope with M.
Notation "x <- m ;; k" := (IO.bind m (fun x => k))
  (at level 61, m at next level, right associativity) : io_scope.
Notation "m ;;; k" := (IO.bind m (fun _ => k))
  (at level 61, right associativity) : io_scope.

Definition print (line : output) : M unit := IO.call (Print line) (Ok tt).

(** [print(json.dumps(v))] *)
Definition print_json (v : pyval) : M unit :=
  if json_serializable v then print (Json v)
  else IO.raise (TypeError (lit "Object is not JSON serializable")).

Definition clock_reads (tr : trace) : nat :=
  List.length (filter (fun ev => match ev with Now => true | _ => false end) tr).

(** The rendering of a possibly missing string in an f-string. *)
Definition fmt_optional (s : option pystr) : pystr :=
  match s with
  | Some s => s
  | None => lit "None"
  end.

(** ** The program *)

Section Program.

Variable w : World.

Definition BIGQUERY_DATASET : pystr := lit "car_data".
Definition BIGQUERY_TABLE : pystr := lit "vehicle_status".

Definition SECRET_PREFIX : pystr := lit "SECRET:".
Definition colon : N := N_of_ascii ":".

(** [f"projects/{PROJECT_ID}/secrets/{secret_id}/versions/latest"] *)
Definition secret_name (secret_id : pystr) : pystr :=
  lit "projects/" ++ fmt_optional (PROJECT_ID w) ++ lit "/secrets/"
  ++ secret_id ++ lit "/versions/latest".

Definition _get_secret (secret_id : pystr) : M pystr :=
  (let name := secret_name secret_id in
   data <- IO.call (AccessSecretVersion name) (access_secret_version w name) ;;
   match Utf8.decode data with
   | Some text => IO.ret (strip text)
   | None => IO.raise (UnicodeDecodeError data)
   end)%io.

(** One turn of [for key, value in connector['config'].items()]; [cfg] is
    the dict [connector['config']] as mutated so far. *)
Definition resolve_item (cfg : dict) (kv : pystr * pyval) : M dict :=
  (let '(key, value) := kv in
   match value with
   | PStr s =>
       if startswith SECRET_PREFIX s then
         secret_id <- IO.lift (index (split1 colon s) 1) ;;
         retrieved_secret <- _get_secret secret_id ;;
         IO.ret (dict_set key (PStr retrieved_secret) cfg)
       else IO.ret cfg
   | _ => IO.ret cfg
   end)%io.

(** The body of [for connector in ...]: the connector after the mutation of
    its ['config'] dict. *)
Definition resolve_connector (connector : pyval) : M pyval :=
  (has_config <- IO.lift (py_in (lit "config") connector) ;;
   if has_config : bool then
     config <- IO.lift (getitem connector (lit "config")) ;;
     its <- IO.lift (items config) ;;
     cfg <- IO.foldM resolve_item its its ;;
     IO.ret (match connector with
             | PDict d => PDict (dict_set (lit "config") (PDict cfg) d)
             | _ => connector
             end)
   else IO.ret connector)%io.

(** [for connector in connectors]: only the elements of a list are objects
    the loop body can mutate. *)
Definition resolve_connectors (connectors : pyval) : M pyval :=
  (elems <- IO.lift (py_iter connectors) ;;
   elems' <- IO.mapM resolve_connector elems ;;
   IO.ret (match connectors with
           | PList _ => PList elems'
           | _ => connectors
           end))%io.

Definition _build_config_with_secrets (config_path : pystr) : M pyval :=
  (config <- IO.call (LoadJson config_path) (json_load w config_path) ;;
   has_cc <- IO.lift (py_in (lit "carConnectivity") config) ;;
   if has_cc : bool then
     cc <- IO.lift (getitem config (lit "carConnectivity")) ;;
     has_connectors <- IO.lift (py_in (lit "connectors") cc) ;;
     if has_connectors : bool then
       connectors <- IO.lift (getitem cc (lit "connectors")) ;;
       connectors' <- resolve_connectors connectors ;;
       IO.ret (match config, cc with
               | PDict d, PDict dcc =>
                   PDict (dict_set (lit "carConnectivity")
                            (PDict (dict_set (lit "connectors") connectors' dcc)) d)
               | _, _ => config
               end)
     else IO.ret config
   else IO.ret config)%io.

(** [f"{PROJECT_ID}.{BIGQUERY_DATASET}.{BIGQUERY_TABLE}"] *)
Definition table_id : pystr :=
  fmt_optional (PROJECT_ID w) ++ lit "." ++ BIGQUERY_DATASET ++ lit "."
  ++ BIGQUERY_TABLE.

Definition _insert_into_bigquery (rows : list pyval) : M unit :=
  (match rows with
   | [] => print (Text (lit "No rows to insert."))
   | _ :: _ =>
       errors <- IO.call (InsertRowsJson table_id rows)
                         (insert_rows_json w table_id rows) ;;
       match errors with
       | [] =>
           print (Text (lit "Successfully loaded "
                        ++ of_N (N.of_nat (List.length rows))
                        ++ lit " rows into " ++ table_id))
       | _ :: _ =>
           print_json (PDict [(lit "severity", PStr (lit "ERROR"));
                              (lit "message", PStr (lit "BigQuery insert errors"));
                              (lit "errors", PList (List.map json_value errors))])
       end
   end)%io.

(** [v.a.b...]: a chain of attribute reads. *)
Fixpoint getpath (v : pyval) (path : list string) : result pyval :=
  match path with
  | [] => Ok v
  | name :: path' => Res.bind (getattr v name) (fun x => getpath x path')
  end.

(** Lines 89-90: the state of charge of one vehicle. *)
Definition soc_of (vehicle : pyval) : result pyval :=
  (edrive <- call0 vehicle "get_electric_drive" ;;
   if truthy edrive then getpath edrive ["level"; "value"] else Ok PNone)%res.

(** [x.a.value if x else None] for [x = vehicle.position], as lines 104 and
    105 evaluate it: the condition first. *)
Definition position_field (vehicle : pyval) (name : string) : result pyval :=
  (cond <- getattr vehicle "position" ;;
   if truthy cond then getpath vehicle ["position"; name; "value"]
   else Ok PNone)%res.

Definition KELVIN_OFFSET : float := 273.15%float.

(** Lines 94-107: the dict display, evaluated entry by entry. *)
Definition make_row (ingestion_time : datetime) (vehicle soc : pyval)
  : result pyval :=
  (let ingestion_timestamp := PStr (isoformat ingestion_time) in
   vehicle_id <- getpath vehicle ["vin"; "value"] ;;
   mileage <- getpath vehicle ["odometer"; "value"] ;;
   charging_power <- getpath vehicle ["charging"; "power"; "value"] ;;
   charging_type <- getpath vehicle ["charging"; "type"; "value"; "value"] ;;
   is_charging <- getpath vehicle ["charging"; "state"; "value"; "value"] ;;
   is_online <- getpath vehicle ["connection_state"; "value"; "value"] ;;
   kelvin <- getpath vehicle ["outside_temperature"; "value"] ;;
   external_temperature <- sub_float kelvin KELVIN_OFFSET ;;
   latitude <- position_field vehicle "latitude" ;;
   longitude <- position_field vehicle "longitude" ;;
   state <- getpath vehicle ["state"; "value"; "value"] ;;
   Ok (PDict [(lit "ingestion_timestamp", ingestion_timestamp);
              (lit "vehicle_id", vehicle_id);
              (lit "mileage", mileage);
              (lit "soc", soc);
              (lit "charging_power", charging_power);
              (lit "charging_type", charging_type);
              (lit "is_charging", is_charging);
              (lit "is_online", is_online);
              (lit "external_temperature", external_temperature);
              (lit "latitude", latitude);
              (lit "longitude", longitude);
              (lit "state", state)]))%res.

(** Lines 88-108: the loop over the vehicles, with [rows_to_insert] as
    accumulated so far. *)
Fixpoint build_rows (ingestion_time : datetime) (vehicles : list pyval)
  (rows_to_insert : list pyval) : result (list pyval) :=
  match vehicles with
  | [] => Ok rows_to_insert
  | vehicle :: rest =>
      (soc <- soc_of vehicle ;;
       if truthy vehicle then
         row <- make_row ingestion_time vehicle soc ;;
         build_rows ingestion_time rest (rows_to_insert ++ [row])
       else build_rows ingestion_time rest rows_to_insert)%res
  end.

(** Lines 52-73, the body of [try]: the vehicles to process, or [None] when
    the function returns from inside the block. *)
Definition fetch_vehicles : M (option (list pyval)) :=
  (config <- _build_config_with_secrets (lit "config.json") ;;
   print (Text (lit "Initializing CarConnectivity with dynamic config...")) ;;;
   cc <- IO.call (NewCarConnectivity config) (CarConnectivity w config) ;;
   IO.call FetchAll (fetch_all cc) ;;;
   garage <- IO.call GetGarage (get_garage cc) ;;
   match garage with
   | None =>
       print (Text (lit "Successfully connected, but no garage object was returned.")) ;;;
       IO.ret None
   | Some g =>
       vehicles <- IO.call ListVehicles (list_vehicles g) ;;
       match vehicles with
       | [] =>
           print (Text (lit "Garage retrieved, but it contains no vehicles.")) ;;;
           IO.ret None
       | _ :: _ =>
           print (Text (lit "Found " ++ of_N (N.of_nat (List.length vehicles))
                        ++ lit " vehicle VIN(s). Fetching full data for each.")) ;;;
           IO.ret (Some vehicles)
       end
   end)%io.

(** Lines 75-82: the handler of [except Exception as e]. *)
Definition init_failure (e : exn) : M (option (list pyval)) :=
  (print_json
     (PDict [(lit "severity", PStr (lit "ERROR"));
             (lit "message", PStr (lit "Failed during initialization or data fetch"));
             (lit "exception_type", PStr (lit (exn_type e)));
             (lit "error", PStr (exn_text e))]) ;;;
   IO.raise e)%io.

(** [datetime.datetime.now(datetime.timezone.utc)] *)
Definition now : M datetime :=
  fun tr => (Ok (utcnow w (clock_reads tr)), tr ++ [Now]).

(** [main(event, context)]; the two arguments are not used. *)
Definition main : M unit :=
  (vehicles <- IO.try_except fetch_vehicles init_failure ;;
   match vehicles with
   | None => IO.ret tt
   | Some vehicles =>
       ingestion_time <- now ;;
       rows_to_insert <- IO.lift (build_rows ingestion_time vehicles []) ;;
       _insert_into_bigquery rows_to_insert
   end)%io.

End Program.

(** ** Views of documents, vehicles and traces used in the statements *)

(** The events a computation may add to the trace all satisfy [P]. *)
Definition emits {A} (P : event -> Prop) (m : M A) : Prop :=
  forall tr r tr', m tr = (r, tr') -> exists ext, tr' = tr ++ ext /\ Forall P ext.

(** The connector entries of a document:
    [doc['carConnectivity']['connectors']] when that is a list. *)
Definition connectors_of (doc : pyval) : list pyval :=
  match doc with
  | PDict d =>
      match dict_get (lit "carConnectivity") d with
      | Some (PDict dcc) =>
          match dict_get (lit "connectors") dcc with
          | Some (PList l) => l
          | _ => []
          end
      | _ => []
      end
  | _ => []
  end.

(** The settings mapping of a connector entry: [connector['config']]. *)
Definition settings (connector : pyval) : option dict :=
  match connector with
  | PDict d =>
      match dict_get (lit "config") d with
      | Some (PDict cfg) => Some cfg
      | _ => None
      end
  | _ => None
  end.

(** [doc['carConnectivity']['connectors'][i]['config'][k]] *)
Definition config_value (doc : pyval) (i : nat) (k : pystr) : option pyval :=
  match nth_error (connectors_of doc) i with
  | Some c =>
      match settings c with
      | Some cfg => dict_get k cfg
      | None => None
      end
  | None => None
  end.

(** Python's invariant on the settings mappings: keys are unique. *)
Definition unique_keys (doc : pyval) : Prop :=
  Forall (fun c => forall cfg, settings c = Some cfg -> NoDup (keys cfg))
         (connectors_of doc).

(** A value of secret-reference form. *)
Definition is_secret_ref (v : pyval) : bool :=
  match v with
  | PStr s => startswith SECRET_PREFIX s
  | _ => false
  end.

(** The text after the first separator. *)
Fixpoint after_first (sep : N) (s : pystr) : pystr :=
  match s with
  | [] => []
  | c :: s' => if c =? sep then s' else after_first sep s'
  end.

(** The secret a reference [s] stands for: the payload stored under the
    identifier after the first [:], decoded as text. *)
Definition secret_text (w : World) (s : pystr) : option pystr :=
  match access_secret_version w (secret_name w (after_first colon s)) with
  | Ok data => Utf8.decode data
  | Raise _ => None
  end.

(** What resolution does to one value of a settings mapping. *)
Definition resolved_value (w : World) (v v' : pyval) : Prop :=
  match v with
  | PStr s =>
      if startswith SECRET_PREFIX s
      then exists text, secret_text w s = Some text /\ v' = PStr (strip text)
      else v' = v
  | _ => v' = v
  end.

Definition item_resolved (w : World) (kv kv' : pystr * pyval) : Prop :=
  fst kv' = fst kv /\ resolved_value w (snd kv) (snd kv').

(** What resolution does to one connector entry: every reference of its
    settings mapping is found in the store and, keys being unique, every
    item is rewritten in place; an entry without settings is untouched. *)
Definition connector_resolved (w : World) (c c' : pyval) : Prop :=
  match settings c with
  | Some cfg =>
      Forall (fun kv => exists v', resolved_value w (snd kv) v') cfg
      /\ (NoDup (keys cfg) ->
          exists cfg', settings c' = Some cfg' /\ Forall2 (item_resolved w) cfg cfg')
  | None => c' = c
  end.

(** No white space at either end. *)
Definition trimmed (s : pystr) : bool :=
  match s with [] => true | c :: _ => negb (isspace c) end
  && match rev s with [] => true | c :: _ => negb (isspace c) end.

(** The secret-store names the references of one settings mapping ask for,
    in the order of its items. *)
Definition item_refs (w : World) (cfg : dict) : list pystr :=
  flat_map (fun kv =>
              match snd kv with
              | PStr s =>
                  if startswith SECRET_PREFIX s
                  then [secret_name w (after_first colon s)] else []
              | _ => []
              end) cfg.

Definition connector_refs (w : World) (connector : pyval) : list pystr :=
  match settings connector with
  | Some cfg => item_refs w cfg
  | None => []
  end.

(** The secret-store calls of a trace, in order. *)
Definition secret_fetches (tr : trace) : list pystr :=
  flat_map (fun ev => match ev with AccessSecretVersion n => [n] | _ => [] end) tr.

(** The store answers for the name, and the payload decodes: the call of
    [_get_secret] under that name returns. *)
Definition secret_readable (w : World) (name : pystr) : bool :=
  match access_secret_version w name with
  | Ok data => match Utf8.decode data with Some _ => true | None => false end
  | Raise _ => false
  end.

(** The batches submitted to the analytical store, in order. *)
Definition store_writes (tr : trace) : list (list pyval) :=
  flat_map (fun ev => match ev with InsertRowsJson _ rows => [rows] | _ => [] end) tr.

(** The events of the resolver: the load of the document and the fetches. *)
Definition resolver_event (ev : event) : Prop :=
  match ev with
  | LoadJson _ | AccessSecretVersion _ => True
  | _ => False
  end.

(** The events of the initialization phase: everything but the clock and
    the store. *)
Definition init_event (ev : event) : Prop :=
  match ev with
  | Now | InsertRowsJson _ _ => False
  | _ => True
  end.

(** The attribute chains a row reads without a guard. *)
Definition required_paths : list (list string) :=
  [["vin"; "value"];
   ["odometer"; "value"];
   ["charging"; "power"; "value"];
   ["charging"; "type"; "value"; "value"];
   ["charging"; "state"; "value"; "value"];
   ["connection_state"; "value"; "value"];
   ["outside_temperature"; "value"];
   ["state"; "value"; "value"]].

Definition present (v : pyval) (path : list string) : Prop :=
  exists x, getpath v path = Ok x.


(** The float Python subtracts from in [v - 273.15]: a float itself, an int
    or a bool through [float(v)]; nothing else, and no int beyond the range
    of floats. *)
Definition as_float (v : pyval) : option float :=
  match v with
  | PFloat f => Some f
  | PInt z => match float_of_int z with Ok f => Some f | Raise _ => None end
  | PBool b =>
      match float_of_int (if b then 1 else 0) with Ok f => Some f | Raise _ => None end
  | _ => None
  end.


(** The row of one vehicle (one turn of the loop). *)
Definition row_of (ingestion_time : datetime) (vehicle : pyval) : result pyval :=
  Res.bind (soc_of vehicle) (make_row ingestion_time vehicle).

(** The field of a row. *)
Definition field (row : pyval) (name : string) : option pyval :=
  match row with
  | PDict d => dict_get (lit name) d
  | _ => None
  end.

(** The record the handler of the initialization phase prints. *)
Definition init_error_record (e : exn) : pyval :=
  PDict [(lit "severity", PStr (lit "ERROR"));
         (lit "message", PStr (lit "Failed during initialization or data fetch"));
         (lit "exception_type", PStr (lit (exn_type e)));
         (lit "error", PStr (exn_text e))].

(** The record printed when the store reports row errors. *)
Definition insert_error_record (errors : list json) : pyval :=
  PDict [(lit "severity", PStr (lit "ERROR"));
         (lit "message", PStr (lit "BigQuery insert errors"));
         (lit "errors", PList (List.map json_value errors))].

(** Whether the loop body accepts a connector entry: a dict whose
    ['config'], when there is one, is a dict; or a list or string that does
    not contain ["config"] (and is passed over). *)
Definition connector_shape (connector : pyval) : bool :=
  match connector with
  | PDict d =>
      match dict_get (lit "config") d with
      | Some (PDict _) | None => true
      | Some _ => false
      end
  | PList l =>
      negb (existsb (fun x => match x with
                              | PStr s => PyStr.eqb s (lit "config")
                              | _ => false
                              end) l)
  | PStr s => negb (contains (lit "config") s)
  | _ => false
  end.

(** The keys of a row, in the order of the dict display. *)
Definition row_keys : list pystr :=
  [lit "ingestion_timestamp"; lit "vehicle_id"; lit "mileage"; lit "soc";
   lit "charging_power"; lit "charging_type"; lit "is_charging";
   lit "is_online"; lit "external_temperature"; lit "latitude";
   lit "longitude"; lit "state"].

(** The events of the initialization phase after the resolver, up to the
    request for the garage, for the resolved [config]. *)
Definition connect_events (config : pyval) : trace :=
  [Print (Text (lit "Initializing CarConnectivity with dynamic config..."));
   NewCarConnectivity config; FetchAll; GetGarage].

(** The line that announces [n] vehicles. *)
Definition found_line (n : nat) : event :=
  Print (Text (lit "Found " ++ of_N (N.of_nat n)
               ++ lit " vehicle VIN(s). Fetching full data for each.")).

(** The line that reports [n] rows written to [table]. *)
Definition loaded_line (n : nat) (table : pystr) : event :=
  Print (Text (lit "Successfully loaded " ++ of_N (N.of_nat n)
               ++ lit " rows into " ++ table)).

(** What the initialization phase can add to the trace: calls to its
    collaborators and its four lines of plain text. *)
Definition init_phase_event (ev : event) : Prop :=
  match ev with
  | Now | InsertRowsJson _ _ | Print (Json _) => False
  | Print (Text s) =>
      s = lit "Initializing CarConnectivity with dynamic config..."
      \/ s = lit "Successfully connected, but no garage object was returned."
      \/ s = lit "Garage retrieved, but it contains no vehicles."
      \/ exists n, Print (Text s) = found_line n
  | _ => True
  end.

(** The records a trace prints through [json.dumps], in order. *)
Definition json_lines (tr : trace) : list pyval :=
  flat_map (fun ev => match ev with Print (Json v) => [v] | _ => [] end) tr.

(** The lines of plain text a trace prints, in order. *)
Definition text_lines (tr : trace) : list pystr :=
  flat_map (fun ev => match ev with Print (Text s) => [s] | _ => [] end) tr.

(** ** Sample inputs *)

Module Sample.

(** An attribute object of the connectivity library: [x.value]. *)
Definition attr (v : pyval) : pyval := PObj "GenericAttribute" [("value", v)].

(** An attribute holding an enum member: [x.value.value]. *)
Definition enum (s : string) : pyval :=
  attr (PObj "Enum" [("value", PStr (lit s))]).

Definition position (lat lon : pyval) : pyval :=
  PObj "Position" [("latitude", attr lat); ("longitude", attr lon)].

Definition electric_drive (level : pyval) : pyval :=
  PObj "ElectricDrive" [("level", attr level)].

(** A vehicle with the given VIN, optional electric drive, outside
    temperature and optional position. *)
Definition car (vin : string) (edrive kelvin pos : pyval) : pyval :=
  PObj "ElectricVehicle"
       [("get_electric_drive", edrive);
        ("vin", attr (PStr (lit vin)));
        ("odometer", attr (PInt 42195));
        ("charging", PObj "Charging"
                         [("power", attr (PFloat 11%float));
                           ("type", enum "ac");
                           ("state", enum "charging")]);
        ("connection_state", enum "online");
        ("outside_temperature", attr kelvin);
        ("position", pos);
        ("state", enum "parked")].

(** The same vehicle without an odometer. *)
Definition car_without_odometer (vin : string) : pyval :=
  PObj "ElectricVehicle"
       [("get_electric_drive", PNone);
        ("vin", attr (PStr (lit vin)));
        ("charging", PObj "Charging"
                         [("power", attr (PFloat 11%float));
                           ("type", enum "ac");
                           ("state", enum "charging")]);
        ("connection_state", enum "online");
        ("outside_temperature", attr (PFloat 285%float));
        ("position", PNone);
        ("state", enum "parked")].

(** A document with one connector: a literal, a reference, a number, and a
    reference nested in a list and in a sub-mapping. *)
Definition doc : pyval :=
  PDict
    [(lit "carConnectivity",
      PDict
        [(lit "log_level", PStr (lit "info"));
         (lit "connectors",
          PList
            [PDict
               [(lit "type", PStr (lit "volkswagen"));
                (lit "config",
                 PDict
                   [(lit "username", PStr (lit "driver@example.org"));
                    (lit "password", PStr (lit "SECRET:vw-password"));
                    (lit "interval", PInt 300);
                    (lit "extra", PList [PStr (lit "SECRET:in-a-list")]);
                    (lit "proxy",
                     PDict [(lit "token", PStr (lit "SECRET:in-a-dict"))])])]])])].

Definition fleet : list pyval :=
  [car "WVWZZZ1" PNone (PFloat 300%float) PNone;
   car "WVWZZZ2" (electric_drive (PFloat 80%float)) (PInt 280)
       (position (PFloat 48.25%float) (PFloat 11.5%float))].

Definition client (vehicles : list pyval) : Client :=
  {| fetch_all := Ok tt;
     get_garage := Ok (Some {| list_vehicles := Ok vehicles |}) |}.

Definition clock (n : nat) : datetime :=
  mkDatetime 2024 11 2 13 4 5 (N.of_nat n).

(** A world in which every collaborator answers: the store holds [payload]
    under every name, the garage holds [vehicles], and the analytical store
    reports [errors]. *)
Definition world (payload : string) (vehicles : list pyval) (errors : list json)
  : World :=
  {| PROJECT_ID := Some (lit "my-project");
     json_load := fun _ => Ok doc;
     access_secret_version := fun _ => Ok (Utf8.bytes_of payload);
     CarConnectivity := fun _ => Ok (client vehicles);
     utcnow := clock;
     insert_rows_json := fun _ _ => Ok errors |}.

(** The same world with a secret store that fails with [e]. *)
Definition world_without_secrets (e : exn) : World :=
  {| PROJECT_ID := Some (lit "my-project");
     json_load := fun _ => Ok doc;
     access_secret_version := fun _ => Raise e;
     CarConnectivity := fun _ => Ok (client fleet);
     utcnow := clock;
     insert_rows_json := fun _ _ => Ok [] |}.

Definition PermissionDenied : exn :=
  mkExn "PermissionDenied" (lit "403 Permission denied on secret") true.

Definition KeyboardInterrupt : exn := mkExn "KeyboardInterrupt" [] false.

Definition row_errors : list json :=
  [exist _ (PDict [(lit "index", PInt 0);
                   (lit "errors",
                    PList [PDict [(lit "reason", PStr (lit "invalid"))]])])
         eq_refl].

Definition config_path : pystr := lit "config.json".

(** The secrets hold a password surrounded by white space. *)
Definition padded_world : World := world " hunter2 " fleet [].

(** [doc] after resolution in [padded_world]. *)
Definition resolved_doc : pyval :=
  PDict
    [(lit "carConnectivity",
      PDict
        [(lit "log_level", PStr (lit "info"));
         (lit "connectors",
          PList
            [PDict
               [(lit "type", PStr (lit "volkswagen"));
                (lit "config",
                 PDict
                   [(lit "username", PStr (lit "driver@example.org"));
                    (lit "password", PStr (lit "hunter2"));
                    (lit "interval", PInt 300);
                    (lit "extra", PList [PStr (lit "SECRET:in-a-list")]);
                    (lit "proxy",
                     PDict [(lit "token", PStr (lit "SECRET:in-a-dict"))])])]])])].

Definition resolve_trace : trace :=
  [LoadJson config_path;
   AccessSecretVersion (lit "projects/my-project/secrets/vw-password/versions/latest")].

(** The secret stored for the password is itself the text of a reference. *)
Definition echo_world : World := world "SECRET:vw-password" fleet [].

(** The row of [car vin ...] at the first reading of [clock]. *)
Definition row (vin : string) (soc ext lat lon : pyval) : pyval :=
  PDict [(lit "ingestion_timestamp", PStr (lit "2024-11-02T13:04:05+00:00"));
         (lit "vehicle_id", PStr (lit vin));
         (lit "mileage", PInt 42195);
         (lit "soc", soc);
         (lit "charging_power", PFloat 11%float);
         (lit "charging_type", PStr (lit "ac"));
         (lit "is_charging", PStr (lit "charging"));
         (lit "is_online", PStr (lit "online"));
         (lit "external_temperature", ext);
         (lit "latitude", lat);
         (lit "longitude", lon);
         (lit "state", PStr (lit "parked"))].

(** A combustion car without position, at 300.0 Kelvin. *)
Definition warm_car : pyval := car "WVWZZZ1" PNone (PFloat 300%float) PNone.

Definition warm_row : pyval :=
  row "WVWZZZ1" PNone (PFloat 26.850000000000023%float) PNone PNone.

(** A car whose position object is there, but holds no latitude yet. *)
Definition car_without_fix : pyval :=
  car "WVWZZZ3" PNone (PFloat 300%float) (position PNone (PFloat 11.5%float)).

Definition row_without_fix : pyval :=
  row "WVWZZZ3" PNone (PFloat 26.850000000000023%float) PNone (PFloat 11.5%float).

Definition fleet_rows : list pyval :=
  [warm_row;
   row "WVWZZZ2" (PFloat 80%float) (PFloat 6.8500000000000227%float)
       (PFloat 48.25%float) (PFloat 11.5%float)].

(** The trace of the initialization phase when everything answers. *)
Definition init_trace (config : pyval) (found : string) : trace :=
  resolve_trace
  ++ [Print (Text (lit "Initializing CarConnectivity with dynamic config..."));
      NewCarConnectivity config; FetchAll; GetGarage; ListVehicles;
      Print (Text (lit found))].

Definition found_two : string :=
  "Found 2 vehicle VIN(s). Fetching full data for each.".

(** The trace of a run of [padded_world]. *)
Definition run_trace : trace :=
  init_trace resolved_doc found_two
  ++ [Now;
      InsertRowsJson (lit "my-project.car_data.vehicle_status") fleet_rows;
      Print (Text (lit "Successfully loaded 2 rows into my-project.car_data.vehicle_status"))].

(** The store rejects rows. *)
Definition rejecting_world : World := world " hunter2 " fleet row_errors.

(** The second vehicle has no odometer. *)
Definition broken_fleet : list pyval := [warm_car; car_without_odometer "WVWZZZ4"].

Definition broken_world : World := world " hunter2 " broken_fleet [].

(** A world whose document is [d] and whose secret store refuses every
    request. *)
Definition world_of (d : pyval) : World :=
  {| PROJECT_ID := Some (lit "my-project");
     json_load := fun _ => Ok d;
     access_secret_version := fun _ => Raise PermissionDenied;
     CarConnectivity := fun _ => Ok (client fleet);
     utcnow := clock;
     insert_rows_json := fun _ _ => Ok [] |}.

(** A document of one connector with the given settings. *)
Definition doc_with (cfg : pyval) : pyval :=
  PDict [(lit "carConnectivity",
          PDict [(lit "connectors", PList [PDict [(lit "config", cfg)]])])].

(** Two references. *)
Definition two_secrets : dict :=
  [(lit "username", PStr (lit "SECRET:first"));
   (lit "password", PStr (lit "SECRET:second"))].

(** The store answers, with a payload that is not UTF-8. *)
Definition garbled_world : World :=
  {| PROJECT_ID := Some (lit "my-project");
     json_load := fun _ => Ok (doc_with (PDict two_secrets));
     access_secret_version := fun _ => Ok [Byte.xff; Byte.xfe];
     CarConnectivity := fun _ => Ok (client fleet);
     utcnow := clock;
     insert_rows_json := fun _ _ => Ok [] |}.

(** A world like [padded_world] with the given client and answer of the
    analytical store. *)
Definition world_with (c : Client) (answer : result (list json)) : World :=
  {| PROJECT_ID := Some (lit "my-project");
     json_load := fun _ => Ok doc;
     access_secret_version := fun _ => Ok (Utf8.bytes_of " hunter2 ");
     CarConnectivity := fun _ => Ok c;
     utcnow := clock;
     insert_rows_json := fun _ _ => answer |}.

(** The client has no garage. *)
Definition garageless : Client :=
  {| fetch_all := Ok tt; get_garage := Ok None |}.

Definition empty_garage : Garage := {| list_vehicles := Ok [] |}.

Definition ServiceUnavailable : exn :=
  mkExn "ServiceUnavailable" (lit "503 backend error") true.

(** The electric car of [fleet] and its row. *)
Definition electric_car : pyval :=
  car "WVWZZZ2" (electric_drive (PFloat 80%float)) (PInt 280)
      (position (PFloat 48.25%float) (PFloat 11.5%float)).

Definition electric_row : pyval :=
  row "WVWZZZ2" (PFloat 80%float) (PFloat 6.8500000000000227%float)
      (PFloat 48.25%float) (PFloat 11.5%float).

(** The environment does not define [GCP_PROJECT]. *)
Definition projectless_world : World :=
  {| PROJECT_ID := None;
     json_load := fun _ => Ok doc;
     access_secret_version := fun _ => Ok (Utf8.bytes_of " hunter2 ");
     CarConnectivity := fun _ => Ok (client fleet);
     utcnow := clock;
     insert_rows_json := fun _ _ => Ok [] |}.

(** A vehicle that reports no outside temperature. *)
Definition car_without_temperature : pyval :=
  car "WVWZZZ5" PNone PNone PNone.

(** A vehicle of a class that has no [get_electric_drive] method. *)
Definition generic_car : pyval :=
  PObj "GenericVehicle"
       [("vin", attr (PStr (lit "WVWZZZ6")));
        ("odometer", attr (PInt 42195));
        ("charging", PObj "Charging"
                         [("power", attr (PFloat 11%float));
                           ("type", enum "ac");
                           ("state", enum "charging")]);
        ("connection_state", enum "online");
        ("outside_temperature", attr (PFloat 285%float));
        ("position", PNone);
        ("state", enum "parked")].

Definition cold_fleet : list pyval := [warm_car; car_without_temperature].


(** The secret holds two words between white space. *)
Definition spaced_world : World := world "  two words " fleet [].


(** A document whose settings hold no reference at their top level. *)
Definition plain_doc : pyval :=
  PDict
    [(lit "carConnectivity",
      PDict
        [(lit "connectors",
          PList
            [PDict
               [(lit "type", PStr (lit "volkswagen"));
                (lit "config",
                 PDict
                   [(lit "username", PStr (lit "driver@example.org"));
                    (lit "interval", PInt 300);
                    (lit "extra", PList [PStr (lit "SECRET:in-a-list")])])];
             PDict [(lit "type", PStr (lit "skoda"))]])])].

End Sample.

(** * Properties *)

(** ** Reasoning about the monad *)

Section MonadFacts.

Context {A B : Type}.

Lemma bind_Ok (m : M A) (k : A -> M B) tr b tr' :
  IO.bind m k tr = (Ok b, tr') ->
  exists a tr1, m tr = (Ok a, tr1) /\ k a tr1 = (Ok b, tr').
Proof.
  unfold IO.bind. destruct (m tr) as [[a|e] tr1]; intros H.
  - exists a, tr1. split; [reflexivity | exact H].
  - discriminate H.
Qed.

Lemma bind_step (m : M A) (k : A -> M B) tr a tr1 :
  m tr = (Ok a, tr1) -> IO.bind m k tr = k a tr1.
Proof. unfold IO.bind. intros ->. reflexivity. Qed.

Lemma bind_Raise (m : M A) (k : A -> M B) tr e tr1 :
  m tr = (Raise e, tr1) -> IO.bind m k tr = (Raise e, tr1).
Proof. unfold IO.bind. intros ->. reflexivity. Qed.

Lemma lift_Ok (r : result A) tr a tr' :
  IO.lift r tr = (Ok a, tr') -> r = Ok a /\ tr' = tr.
Proof. unfold IO.lift. intros H. inversion H. split; reflexivity. Qed.

Lemma call_Ok ev (r : result A) tr a tr' :
  IO.call ev r tr = (Ok a, tr') -> r = Ok a /\ tr' = tr ++ [ev].
Proof. unfold IO.call. intros H. inversion H. split; reflexivity. Qed.

Lemma ret_Ok (a a' : A) tr tr' :
  IO.ret a tr = (Ok a', tr') -> a' = a /\ tr' = tr.
Proof. unfold IO.ret. intros H. inversion H. split; reflexivity. Qed.

End MonadFacts.

(** Inversion of a successful run, one step at a time: [io_bind H a H1]
    splits a bind in [H] into the run [H1] of its first part, with result
    [a], and the run of the rest, which stays in [H]. *)
Ltac io_bind H a H1 :=
  apply bind_Ok in H;
  let tr1 := fresh "tr" in
  destruct H as (a & tr1 & H1 & H).

Ltac io_lift H := apply lift_Ok in H; destruct H as [H ->].
Ltac io_call H := apply call_Ok in H; destruct H as [H ->].
Ltac io_ret H := apply ret_Ok in H; destruct H as [-> ->].

(** A bind whose first part is pure, or a call to a collaborator. *)
Ltac io_pure H a E := io_bind H a E; io_lift E.
Ltac io_ask H a E := io_bind H a E; io_call E.

(** *** Footprints: the events a computation may add to the trace *)

Section Footprint.

Variable P : event -> Prop.

Lemma emits_ret {A} (a : A) : emits P (IO.ret a).
Proof.
  intros tr r tr' H. inversion H; subst. exists []. split; [now rewrite app_nil_r | constructor].
Qed.

Lemma emits_raise {A} (e : exn) : emits P (@IO.raise A e).
Proof.
  intros tr r tr' H. inversion H; subst. exists []. split; [now rewrite app_nil_r | constructor].
Qed.

Lemma emits_lift {A} (x : result A) : emits P (IO.lift x).
Proof.
  intros tr r tr' H. inversion H; subst. exists []. split; [now rewrite app_nil_r | constructor].
Qed.

Lemma emits_call {A} ev (x : result A) : P ev -> emits P (IO.call ev x).
Proof.
  intros Hev tr r tr' H. inversion H; subst. exists [ev]. split; [reflexivity | now constructor].
Qed.

Lemma emits_bind {A B} (m : M A) (k : A -> M B) :
  emits P m -> (forall a, emits P (k a)) -> emits P (IO.bind m k).
Proof.
  intros Hm Hk tr r tr'. unfold IO.bind.
  destruct (m tr) as [[a|e] tr1] eqn:E; intros H.
  - destruct (Hm _ _ _ E) as (x1 & -> & F1).
    destruct (Hk a _ _ _ H) as (x2 & -> & F2).
    exists (x1 ++ x2). split; [now rewrite app_assoc | now apply Forall_app].
  - inversion H; subst. exact (Hm _ _ _ E).
Qed.

Lemma emits_try {A} (body : M A) handler :
  emits P body -> (forall e, emits P (handler e)) -> emits P (IO.try_except body handler).
Proof.
  intros Hb Hh tr r tr'. unfold IO.try_except.
  destruct (body tr) as [[a|e] tr1] eqn:E; intros H.
  - inversion H; subst. exact (Hb _ _ _ E).
  - destruct (Hb _ _ _ E) as (x1 & -> & F1).
    destruct (exn_is_Exception e).
    + destruct (Hh e _ _ _ H) as (x2 & -> & F2).
      exists (x1 ++ x2). split; [now rewrite app_assoc | now apply Forall_app].
    + inversion H; subst. exists x1. split; [reflexivity | exact F1].
Qed.

Lemma emits_foldM {A B} (f : A -> B -> M A) l :
  (forall a b, emits P (f a b)) -> forall a, emits P (IO.foldM f l a).
Proof.
  intros Hf. induction l as [|b l IH]; intros a; simpl.
  - apply emits_ret.
  - apply emits_bind; [apply Hf | exact IH].
Qed.

Lemma emits_mapM {A B} (f : A -> M B) l :
  (forall a, emits P (f a)) -> emits P (IO.mapM f l).
Proof.
  intros Hf. induction l as [|a l IH]; simpl.
  - apply emits_ret.
  - apply emits_bind; [apply Hf | intros b].
    apply emits_bind; [exact IH | intros bs; apply emits_ret].
Qed.

End Footprint.

Lemma emits_weaken {A} (P Q : event -> Prop) (m : M A) :
  (forall ev, P ev -> Q ev) -> emits P m -> emits Q m.
Proof.
  intros PQ Hm tr r tr' H. destruct (Hm _ _ _ H) as (ext & -> & F).
  exists ext. split; [reflexivity|]. eapply Forall_impl; eauto.
Qed.

(** ** Strings and dicts *)

Lemma eqb_eq (a b : pystr) : PyStr.eqb a b = true <-> a = b.
Proof.
  unfold PyStr.eqb. destruct (list_eq_dec N.eq_dec a b); split; intros; congruence.
Qed.

Lemma eqb_refl (a : pystr) : PyStr.eqb a a = true.
Proof. now apply eqb_eq. Qed.

Lemma eqb_neq (a b : pystr) : PyStr.eqb a b = false <-> a <> b.
Proof.
  unfold PyStr.eqb. destruct (list_eq_dec N.eq_dec a b); split; intros; congruence.
Qed.

Lemma startswith_app (p s : pystr) :
  startswith p s = true -> s = p ++ skipn (List.length p) s.
Proof.
  revert s. induction p as [|c p IH]; intros [|d s]; simpl; intros H;
    try reflexivity; try discriminate.
  apply andb_true_iff in H. destruct H as [E H]. apply N.eqb_eq in E. subst d.
  f_equal. now apply IH.
Qed.

(** The identifier the source extracts with [split(":", 1)[1]] is the text
    after the first colon. *)
Lemma split1_after_first (s : pystr) :
  startswith SECRET_PREFIX s = true ->
  index (split1 colon s) 1 = Ok (after_first colon s).
Proof.
  intros H. apply startswith_app in H. rewrite H.
  generalize (skipn (List.length SECRET_PREFIX) s). intros rest.
  reflexivity.
Qed.

Lemma lstrip_split (s : pystr) :
  exists sp, s = sp ++ lstrip s /\ forallb isspace sp = true.
Proof.
  induction s as [|c s IH]; simpl.
  - exists []. split; reflexivity.
  - destruct (isspace c) eqn:E.
    + destruct IH as (sp & E1 & E2). exists (c :: sp). simpl. rewrite E, E2.
      split; [congruence | reflexivity].
    + exists []. split; reflexivity.
Qed.

Lemma lstrip_head (s : pystr) :
  match lstrip s with [] => true | c :: _ => negb (isspace c) end = true.
Proof.
  induction s as [|c s IH]; simpl; [reflexivity|].
  destruct (isspace c) eqn:E; [exact IH | simpl; now rewrite E].
Qed.

(** The result of [strip] has no white space at either end. *)
Lemma strip_trimmed (s : pystr) : trimmed (strip s) = true.
Proof.
  unfold trimmed, strip, rstrip. rewrite rev_involutive.
  rewrite (lstrip_head (rev (lstrip s))), andb_true_r.
  destruct (lstrip_split (rev (lstrip s))) as (sp & E1 & E2).
  pose proof (lstrip_head s) as Hh.
  apply (f_equal (@rev N)) in E1. rewrite rev_involutive, rev_app_distr in E1.
  destruct (rev (lstrip (rev (lstrip s)))) as [|c q] eqn:Eq; [reflexivity|].
  rewrite E1 in Hh. exact Hh.
Qed.

Lemma dict_get_set_same k v d : dict_get k (dict_set k v d) = Some v.
Proof.
  induction d as [|[k' v'] d IH]; simpl.
  - now rewrite eqb_refl.
  - destruct (PyStr.eqb k k') eqn:E; simpl; rewrite E; [reflexivity | exact IH].
Qed.

(** Assigning to a key that no earlier entry carries rewrites that entry. *)
Lemma dict_set_middle k v v0 (pre post : dict) :
  ~ In k (keys pre) ->
  dict_set k v (pre ++ (k, v0) :: post) = pre ++ (k, v) :: post.
Proof.
  induction pre as [|[k' v'] pre IH]; simpl; intros Hn.
  - now rewrite eqb_refl.
  - destruct (PyStr.eqb k k') eqn:E.
    + apply eqb_eq in E. subst. exfalso. apply Hn. now left.
    + f_equal. apply IH. intros Hin. apply Hn. now right.
Qed.

Lemma Forall2_nth_error {A B} (R : A -> B -> Prop) l l' i a :
  Forall2 R l l' -> nth_error l i = Some a ->
  exists b, nth_error l' i = Some b /\ R a b.
Proof.
  intros F. revert i. induction F as [|x y l l' Rxy F IH]; intros [|i]; simpl;
    intros H; try discriminate.
  - inversion H; subst. exists y. split; [reflexivity | exact Rxy].
  - now apply IH.
Qed.

Lemma Forall2_nth_error_r {A B} (R : A -> B -> Prop) l l' i b :
  Forall2 R l l' -> nth_error l' i = Some b ->
  exists a, nth_error l i = Some a /\ R a b.
Proof.
  intros F. revert i. induction F as [|x y l l' Rxy F IH]; intros [|i]; simpl;
    intros H; try discriminate.
  - inversion H; subst. exists x. split; [reflexivity | exact Rxy].
  - now apply IH.
Qed.

(** ** The decoder and its error report *)

Lemma option_map_None {A B} (f : A -> B) o : option_map f o = None <-> o = None.
Proof. destruct o; cbn; split; congruence. Qed.

Ltac mod_lia := zify; Z.to_euclidean_division_equations; lia.

Ltac split_tests :=
  repeat (match goal with
          | |- context [?a <? ?b] => destruct (N.ltb_spec a b)
          | |- context [?a <=? ?b] => destruct (N.leb_spec a b)
          | |- context [?a =? ?b] => destruct (N.eqb_spec a b)
          end; cbn [andb orb negb]; try (exfalso; mod_lia)).

Lemma decode_error_len n : forall bs pos, (List.length bs <= n)%nat ->
  (Utf8.decode_N bs = None <-> Utf8.error_N pos bs <> None).
Proof.
  induction n as [|n IH]; intros bs pos Hlen.
  - destruct bs; [|cbn in Hlen; lia]. cbn. split; congruence.
  - destruct bs as [|b0 r0]; [cbn; split; congruence|].
    cbn [List.length] in Hlen.
    cbn [Utf8.decode_N Utf8.error_N].
    destruct (N.ltb_spec b0 0x80); [rewrite option_map_None; apply IH; lia|].
    unfold Utf8.bad_second3, Utf8.bad_second4, Utf8.is_cont, Utf8.is_surrogate.
    destruct r0 as [|b1 [|b2 [|b3 r3]]]; cbn [List.length] in Hlen;
      split_tests;
      solve [ split; [intros _; discriminate | reflexivity]
            | rewrite option_map_None; apply IH; cbn [List.length]; lia ].
Qed.

(** The decoder rejects exactly the data for which an error is reported:
    the text of [UnicodeDecodeError] is defined whenever it is raised. *)
Lemma decode_None_error data :
  Utf8.decode data = None <-> Utf8.error data <> None.
Proof. apply (decode_error_len (List.length (List.map Byte.to_N data))). lia. Qed.

(** The texts of CPython for a stray byte, a cut sequence, a wrong
    continuation byte and a surrogate. *)
Example decode_error_texts :
  Utf8.error_text [Byte.xff; Byte.xfe]
  = lit "'utf-8' codec can't decode byte 0xff in position 0: invalid start byte"
  /\ Utf8.error_text [Byte.x61; Byte.xe2; Byte.x82]
     = lit "'utf-8' codec can't decode bytes in position 1-2: unexpected end of data"
  /\ Utf8.error_text [Byte.xe2; Byte.x82; Byte.x28]
     = lit "'utf-8' codec can't decode bytes in position 0-1: invalid continuation byte"
  /\ Utf8.error_text [Byte.x61; Byte.x62; Byte.xed; Byte.xa0; Byte.x80]
     = lit "'utf-8' codec can't decode byte 0xed in position 2: invalid continuation byte"
  /\ Utf8.error_text [Byte.xc3]
     = lit "'utf-8' codec can't decode byte 0xc3 in position 0: unexpected end of data".
Proof. repeat split; reflexivity. Qed.

(** ** The configuration resolver *)

Section Resolver.

Variable w : World.

Lemma _get_secret_Ok secret_id tr text' tr' :
  _get_secret w secret_id tr = (Ok text', tr') ->
  exists data text,
    access_secret_version w (secret_name w secret_id) = Ok data
    /\ Utf8.decode data = Some text
    /\ text' = strip text
    /\ tr' = tr ++ [AccessSecretVersion (secret_name w secret_id)].
Proof.
  unfold _get_secret. intros H. io_ask H data E.
  destruct (Utf8.decode data) as [text|] eqn:D.
  - io_ret H. exists data, text. repeat split; assumption || reflexivity.
  - discriminate H.
Qed.

Lemma resolve_item_Ok cfg k v tr cfg' tr' :
  resolve_item w cfg (k, v) tr = (Ok cfg', tr') ->
  exists v', resolved_value w v v'
    /\ cfg' = (if is_secret_ref v then dict_set k v' cfg else cfg)
    /\ tr' = tr ++ List.map AccessSecretVersion (item_refs w [(k, v)]).
Proof.
  unfold resolve_item, item_refs, resolved_value, is_secret_ref.
  cbn [fst snd flat_map List.map app].
  destruct v; intros H;
    try (io_ret H; eexists; split; [reflexivity | split; [reflexivity | now rewrite app_nil_r]]).
  destruct (startswith SECRET_PREFIX s) eqn:Hp.
  - io_pure H secret_id E. rewrite (split1_after_first _ Hp) in E.
    inversion E; subst secret_id. io_bind H retrieved G. io_ret H.
    apply _get_secret_Ok in G. destruct G as (data & text & E1 & E2 & -> & ->).
    exists (PStr (strip text)). split; [|split; reflexivity].
    exists text. split; [|reflexivity]. unfold secret_text. now rewrite E1.
  - io_ret H. exists (PStr s). split; [reflexivity | split; [reflexivity | now rewrite app_nil_r]].
Qed.

Lemma item_refs_cons kv its :
  item_refs w (kv :: its) = item_refs w [kv] ++ item_refs w its.
Proof. unfold item_refs. cbn [flat_map]. now rewrite app_nil_r. Qed.

(** The loop over the items fetches exactly the references of the mapping,
    in order, and each of them is found in the store. *)
Lemma resolve_items_trace its acc tr cfg' tr' :
  IO.foldM (resolve_item w) its acc tr = (Ok cfg', tr') ->
  tr' = tr ++ List.map AccessSecretVersion (item_refs w its)
  /\ Forall (fun kv => exists v', resolved_value w (snd kv) v') its.
Proof.
  revert acc tr tr'.
  induction its as [|[k v] its IH]; cbn [IO.foldM]; intros acc tr tr' H.
  - io_ret H. split; [now rewrite app_nil_r | constructor].
  - io_bind H acc1 Hitem. apply resolve_item_Ok in Hitem.
    destruct Hitem as (v' & R & -> & ->).
    apply IH in H. destruct H as [-> F].
    split; [|constructor; [now exists v' | exact F]].
    rewrite (item_refs_cons (k, v) its), map_app, app_assoc. reflexivity.
Qed.

(** With unique keys, the loop rewrites the mapping entry by entry. *)
Lemma resolve_items_values its done tr cfg' tr' :
  NoDup (keys (done ++ its)) ->
  IO.foldM (resolve_item w) its (done ++ its) tr = (Ok cfg', tr') ->
  exists its', cfg' = done ++ its' /\ Forall2 (item_resolved w) its its'.
Proof.
  revert done tr tr'.
  induction its as [|[k v] its IH]; cbn [IO.foldM]; intros done tr tr' ND H.
  - io_ret H. exists []. split; [reflexivity | constructor].
  - io_bind H acc1 Hitem. apply resolve_item_Ok in Hitem.
    destruct Hitem as (v' & R & -> & ->).
    assert (Hn : ~ In k (keys done)).
    { unfold keys in *. rewrite map_app in ND. simpl in ND.
      apply NoDup_remove_2 in ND. intros Hin. apply ND. apply in_or_app. now left. }
    assert (Hacc : (if is_secret_ref v then dict_set k v' (done ++ (k, v) :: its)
                    else done ++ (k, v) :: its) = (done ++ [(k, v')]) ++ its).
    { rewrite <- app_assoc. simpl. destruct (is_secret_ref v) eqn:S.
      - now apply dict_set_middle.
      - unfold resolved_value, is_secret_ref in R, S.
        destruct v; try now subst v'.
        rewrite S in R. now subst v'. }
    rewrite Hacc in H. apply IH in H.
    + destruct H as (its' & -> & F). exists ((k, v') :: its'). split.
      * now rewrite <- app_assoc.
      * constructor; [split; [reflexivity | exact R] | exact F].
    + unfold keys in *. rewrite <- app_assoc. simpl.
      rewrite map_app in *. simpl in *. exact ND.
Qed.

Lemma resolve_connector_Ok c tr c' tr' :
  resolve_connector w c tr = (Ok c', tr') ->
  connector_resolved w c c'
  /\ tr' = tr ++ List.map AccessSecretVersion (connector_refs w c).
Proof.
  unfold resolve_connector, connector_resolved, connector_refs. intros H.
  io_pure H has_config E.
  destruct c; try discriminate E; cbn [py_in settings] in *;
    inversion E; subst has_config; clear E.
  - (* a string: only reached when it does not contain "config" *)
    destruct (contains (lit "config") s).
    + io_pure H x E. discriminate E.
    + io_ret H. split; [reflexivity | now rewrite app_nil_r].
  - (* a list *)
    destruct (existsb _ l).
    + io_pure H x E. discriminate E.
    + io_ret H. split; [reflexivity | now rewrite app_nil_r].
  - (* a dict *)
    destruct (dict_get (lit "config") d) as [x|] eqn:G.
    + io_pure H config E. cbn [getitem] in E. rewrite G in E.
      inversion E; subst config. clear E.
      io_pure H its E.
      destruct x; try discriminate E. inversion E; subst its. clear E.
      io_bind H cfg Hloop. io_ret H.
      pose proof (resolve_items_trace _ _ _ _ _ Hloop) as [-> F].
      split; [split; [exact F|] | reflexivity].
      intros ND. apply (resolve_items_values d0 [] tr) in Hloop; [|exact ND].
      destruct Hloop as (its' & -> & F2). exists its'. split; [|exact F2].
      cbn [settings]. now rewrite dict_get_set_same.
    + io_ret H. split; [reflexivity | now rewrite app_nil_r].
Qed.

Lemma resolve_connectors_list l tr l' tr' :
  IO.mapM (resolve_connector w) l tr = (Ok l', tr') ->
  Forall2 (connector_resolved w) l l'
  /\ tr' = tr ++ List.map AccessSecretVersion (flat_map (connector_refs w) l).
Proof.
  revert tr l' tr'.
  induction l as [|c l IH]; cbn [IO.mapM flat_map]; intros tr l' tr' H.
  - io_ret H. split; [constructor | now rewrite app_nil_r].
  - io_bind H c' Hc. io_bind H rest Hrest. io_ret H.
    apply resolve_connector_Ok in Hc. destruct Hc as [R ->].
    apply IH in Hrest. destruct Hrest as [F ->].
    split; [now constructor | now rewrite map_app, app_assoc].
Qed.

(** Entries that are not dicts carry no settings. *)
Lemma connector_refs_keys (d : dict) :
  flat_map (connector_refs w) (List.map (fun kv => PStr (fst kv)) d) = [].
Proof. induction d as [|x l IH]; [reflexivity | exact IH]. Qed.

Lemma connector_refs_chars (s : pystr) :
  flat_map (connector_refs w) (List.map (fun c => PStr [c]) s) = [].
Proof. induction s as [|x l IH]; [reflexivity | exact IH]. Qed.

(** The whole resolver: when it returns, the connector entries have been
    resolved one by one, and the trace shows the load of the document
    followed by one fetch per reference, in document order. *)
Lemma resolve_Ok path tr doc' tr' :
  _build_config_with_secrets w path tr = (Ok doc', tr') ->
  exists doc,
    json_load w path = Ok doc
    /\ Forall2 (connector_resolved w) (connectors_of doc) (connectors_of doc')
    /\ tr' = tr ++ LoadJson path
                :: List.map AccessSecretVersion
                     (flat_map (connector_refs w) (connectors_of doc)).
Proof.
  unfold _build_config_with_secrets. intros H.
  io_ask H doc E. exists doc. split; [exact E|]. clear E.
  assert (Hsame : forall tr0, IO.ret doc (tr ++ [LoadJson path]) = (Ok doc', tr0) ->
            connectors_of doc = [] ->
            Forall2 (connector_resolved w) (connectors_of doc) (connectors_of doc')
            /\ tr0 = tr ++ LoadJson path
                :: List.map AccessSecretVersion
                     (flat_map (connector_refs w) (connectors_of doc))).
  { intros tr0 H0 Hn. io_ret H0. rewrite Hn. split; [constructor | reflexivity]. }
  io_pure H has_cc E.
  destruct has_cc.
  2:{ apply Hsame; [exact H|].
      destruct doc; try reflexivity. cbn [py_in] in E. cbn [connectors_of].
      destruct (dict_get (lit "carConnectivity") d); [discriminate E | reflexivity]. }
  clear E. io_pure H cc E.
  destruct doc; try discriminate E. cbn [getitem] in E.
  destruct (dict_get (lit "carConnectivity") d) as [x|] eqn:Gcc; [|discriminate E].
  inversion E; subst x. clear E.
  io_pure H has_connectors E.
  destruct has_connectors.
  2:{ apply Hsame; [exact H|]. cbn [connectors_of]. rewrite Gcc.
      destruct cc; try reflexivity. cbn [py_in] in E.
      destruct (dict_get (lit "connectors") d0); [discriminate E | reflexivity]. }
  clear E. io_pure H conns E.
  destruct cc; try discriminate E. cbn [getitem] in E.
  destruct (dict_get (lit "connectors") d0) as [x|] eqn:Gc; [|discriminate E].
  inversion E; subst x. clear E.
  io_bind H conns' Hc. io_ret H. unfold resolve_connectors in Hc.
  io_pure Hc elems E. io_bind Hc elems' Hmap. io_ret Hc.
  apply resolve_connectors_list in Hmap. destruct Hmap as [F ->].
  cbn [connectors_of]. rewrite Gcc, Gc, !dict_get_set_same.
  destruct conns; try discriminate E; cbn [py_iter] in E; inversion E; subst elems; clear E.
  - (* a string: its characters *)
    split; [constructor|]. rewrite connector_refs_chars. now rewrite app_nil_r.
  - (* a list of connector entries *)
    split; [exact F | now rewrite <- app_assoc].
  - (* a dict: its keys *)
    split; [constructor|]. rewrite connector_refs_keys. now rewrite app_nil_r.
Qed.

End Resolver.

Section ResolverFacts.

Variable w : World.

Lemma items_resolved_get cfg cfg' k :
  Forall2 (item_resolved w) cfg cfg' ->
  match dict_get k cfg with
  | Some v => exists v', dict_get k cfg' = Some v' /\ resolved_value w v v'
  | None => dict_get k cfg' = None
  end.
Proof.
  induction 1 as [|[k1 v1] [k2 v2] cfg cfg' [Hk Hv] F IH]; cbn [dict_get]; [reflexivity|].
  cbn [fst snd] in Hk, Hv. subst k2.
  destruct (PyStr.eqb k k1); [|exact IH].
  exists v2. split; [reflexivity | exact Hv].
Qed.

Lemma secret_fetches_app tr1 tr2 :
  secret_fetches (tr1 ++ tr2) = secret_fetches tr1 ++ secret_fetches tr2.
Proof. unfold secret_fetches. apply flat_map_app. Qed.

Lemma secret_fetches_names names :
  secret_fetches (List.map AccessSecretVersion names) = names.
Proof.
  induction names as [|n names IH]; [reflexivity|].
  cbn. unfold secret_fetches in IH. now rewrite IH.
Qed.

Lemma emits_get_secret secret_id : emits resolver_event (_get_secret w secret_id).
Proof.
  unfold _get_secret. apply emits_bind; [now apply emits_call|]. intros data.
  destruct (Utf8.decode data); [apply emits_ret | apply emits_raise].
Qed.

Lemma emits_resolve_item cfg kv : emits resolver_event (resolve_item w cfg kv).
Proof.
  unfold resolve_item. destruct kv as [k v].
  destruct v; try apply emits_ret.
  destruct (startswith SECRET_PREFIX s); [|apply emits_ret].
  apply emits_bind; [apply emits_lift|]. intros secret_id.
  apply emits_bind; [apply emits_get_secret|]. intros r. apply emits_ret.
Qed.

Lemma emits_resolve_connector c : emits resolver_event (resolve_connector w c).
Proof.
  unfold resolve_connector.
  apply emits_bind; [apply emits_lift|]. intros [|]; [|apply emits_ret].
  apply emits_bind; [apply emits_lift|]. intros config.
  apply emits_bind; [apply emits_lift|]. intros its.
  apply emits_bind; [|intros cfg; apply emits_ret].
  apply emits_foldM. intros a b. apply emits_resolve_item.
Qed.

Lemma emits_resolve path : emits resolver_event (_build_config_with_secrets w path).
Proof.
  unfold _build_config_with_secrets.
  apply emits_bind; [now apply emits_call|]. intros config.
  apply emits_bind; [apply emits_lift|]. intros [|]; [|apply emits_ret].
  apply emits_bind; [apply emits_lift|]. intros cc.
  apply emits_bind; [apply emits_lift|]. intros [|]; [|apply emits_ret].
  apply emits_bind; [apply emits_lift|]. intros conns.
  apply emits_bind; [|intros c'; apply emits_ret].
  unfold resolve_connectors.
  apply emits_bind; [apply emits_lift|]. intros elems.
  apply emits_bind; [|intros e'; apply emits_ret].
  apply emits_mapM. apply emits_resolve_connector.
Qed.

End ResolverFacts.

(** ** Building the rows *)

Lemma res_bind_Ok {A B} (m : result A) (k : A -> result B) b :
  Res.bind m k = Ok b -> exists a, m = Ok a /\ k a = Ok b.
Proof.
  destruct m as [a|e]; simpl; intros H; [|discriminate H].
  exists a. split; [reflexivity | exact H].
Qed.

Ltac res_bind H a E :=
  apply res_bind_Ok in H; destruct H as (a & E & H).

Section Rows.

Variable ts : datetime.

(** A row that was built read every field from the vehicle. *)
Lemma make_row_Ok v soc row :
  make_row ts v soc = Ok row ->
  exists vehicle_id mileage power ctype charging online kelvin ext lat lon state,
    getpath v ["vin"; "value"] = Ok vehicle_id
    /\ getpath v ["odometer"; "value"] = Ok mileage
    /\ getpath v ["charging"; "power"; "value"] = Ok power
    /\ getpath v ["charging"; "type"; "value"; "value"] = Ok ctype
    /\ getpath v ["charging"; "state"; "value"; "value"] = Ok charging
    /\ getpath v ["connection_state"; "value"; "value"] = Ok online
    /\ getpath v ["outside_temperature"; "value"] = Ok kelvin
    /\ sub_float kelvin KELVIN_OFFSET = Ok ext
    /\ position_field v "latitude" = Ok lat
    /\ position_field v "longitude" = Ok lon
    /\ getpath v ["state"; "value"; "value"] = Ok state
    /\ row = PDict [(lit "ingestion_timestamp", PStr (isoformat ts));
                    (lit "vehicle_id", vehicle_id);
                    (lit "mileage", mileage);
                    (lit "soc", soc);
                    (lit "charging_power", power);
                    (lit "charging_type", ctype);
                    (lit "is_charging", charging);
                    (lit "is_online", online);
                    (lit "external_temperature", ext);
                    (lit "latitude", lat);
                    (lit "longitude", lon);
                    (lit "state", state)].
Proof.
  unfold make_row. intros H.
  res_bind H vehicle_id E1. res_bind H mileage E2. res_bind H power E3.
  res_bind H ctype E4. res_bind H charging E5. res_bind H online E6.
  res_bind H kelvin E7. res_bind H ext E8. res_bind H lat E9.
  res_bind H lon E10. res_bind H state E11.
  exists vehicle_id, mileage, power, ctype, charging, online, kelvin, ext, lat, lon, state.
  inversion H. repeat (split; [assumption|]). reflexivity.
Qed.

Lemma soc_of_truthy v soc : soc_of v = Ok soc -> truthy v = true.
Proof.
  unfold soc_of, call0, getattr. destruct v; simpl; intros H; try discriminate H.
  reflexivity.
Qed.

Lemma row_of_Ok v row :
  row_of ts v = Ok row ->
  exists soc, soc_of v = Ok soc /\ make_row ts v soc = Ok row.
Proof. unfold row_of. intros H. res_bind H soc E. now exists soc. Qed.

(** The loop appends one row per vehicle, in order. *)
Lemma build_rows_Ok vs acc rows :
  build_rows ts vs acc = Ok rows ->
  exists new, rows = acc ++ new /\ Forall2 (fun v row => row_of ts v = Ok row) vs new.
Proof.
  revert acc. induction vs as [|v vs IH]; cbn [build_rows]; intros acc H.
  - inversion H. exists []. split; [now rewrite app_nil_r | constructor].
  - res_bind H soc E. rewrite (soc_of_truthy _ _ E) in H.
    res_bind H row Er. apply IH in H. destruct H as (new & -> & F).
    exists (row :: new). split; [now rewrite <- app_assoc|].
    constructor; [|exact F]. unfold row_of. rewrite E. exact Er.
Qed.


Lemma getpath_cons v name path x :
  getattr v name = Ok x -> getpath v (name :: path) = getpath x path.
Proof. cbn [getpath]. intros ->. reflexivity. Qed.

(** A row was built only if every required chain could be read. *)
Lemma row_of_present v row :
  row_of ts v = Ok row -> Forall (present v) required_paths.
Proof.
  intros H. apply row_of_Ok in H. destruct H as (soc & _ & H).
  apply make_row_Ok in H.
  destruct H as (x1 & x2 & x3 & x4 & x5 & x6 & x7 & x8 & x9 & x10 & x11
                 & E1 & E2 & E3 & E4 & E5 & E6 & E7 & _ & _ & _ & E11 & _).
  unfold required_paths, present. repeat constructor; eexists; eassumption.
Qed.

(** What the subtraction of line 103 needs and gives. *)
Lemma sub_float_as_float k c :
  match as_float k with
  | Some t => sub_float k c = Ok (PFloat (PrimFloat.sub t c))
  | None => exists e, sub_float k c = Raise e
  end.
Proof.
  destruct k as [| b | z | f | s | l | d | attrs]; cbn [as_float sub_float];
    try (eexists; reflexivity); try reflexivity.
  - destruct (float_of_int (if b then 1 else 0)) as [f|e]; cbn [Res.bind];
      [reflexivity | now exists e].
  - destruct (float_of_int z) as [f|e]; cbn [Res.bind]; [reflexivity | now exists e].
Qed.


End Rows.

(** ** The run *)

Section Run.

Variable w : World.

Lemma clock_reads_app tr1 tr2 :
  clock_reads (tr1 ++ tr2) = (clock_reads tr1 + clock_reads tr2)%nat.
Proof. unfold clock_reads. now rewrite filter_app, length_app. Qed.

Lemma store_writes_app tr1 tr2 :
  store_writes (tr1 ++ tr2) = store_writes tr1 ++ store_writes tr2.
Proof. unfold store_writes. apply flat_map_app. Qed.

Lemma init_events_quiet ext :
  Forall init_event ext -> clock_reads ext = O /\ store_writes ext = [].
Proof.
  induction 1 as [|ev ext Hev F [IH1 IH2]]; [split; reflexivity|].
  destruct ev; try contradiction Hev; split; assumption.
Qed.

Lemma resolver_event_init ev : resolver_event ev -> init_event ev.
Proof. destruct ev; simpl; tauto. Qed.

Lemma emits_print (P : event -> Prop) line : P (Print line) -> emits P (print line).
Proof. intros H. unfold print. now apply emits_call. Qed.

Lemma emits_fetch_vehicles : emits init_event (fetch_vehicles w).
Proof.
  unfold fetch_vehicles.
  apply emits_bind.
  { eapply emits_weaken; [apply resolver_event_init | apply emits_resolve]. }
  intros config. apply emits_bind; [now apply emits_print|]. intros _.
  apply emits_bind; [now apply emits_call|]. intros cc.
  apply emits_bind; [now apply emits_call|]. intros _.
  apply emits_bind; [now apply emits_call|]. intros [g|].
  - apply emits_bind; [now apply emits_call|]. intros [|v vs].
    + apply emits_bind; [now apply emits_print | intros _; apply emits_ret].
    + apply emits_bind; [now apply emits_print | intros _; apply emits_ret].
  - apply emits_bind; [now apply emits_print | intros _; apply emits_ret].
Qed.

(** The initialization phase reads no clock and writes nothing. *)
Lemma fetch_vehicles_quiet r tr1 :
  fetch_vehicles w [] = (r, tr1) -> clock_reads tr1 = O /\ store_writes tr1 = [].
Proof.
  intros H. destruct (emits_fetch_vehicles _ _ _ H) as (ext & -> & F).
  now apply init_events_quiet.
Qed.

(** It hands over a list of vehicles only when the list is not empty. *)
Lemma fetch_vehicles_nonempty tr vs tr1 :
  fetch_vehicles w tr = (Ok (Some vs), tr1) -> vs <> [].
Proof.
  unfold fetch_vehicles. intros H.
  io_bind H config Hc. io_bind H u Hp. io_bind H cc Hcc. io_bind H u2 Hf.
  io_bind H garage Hg. destruct garage as [g|].
  - io_bind H vehicles Hl. destruct vehicles as [|v vs'].
    + io_bind H u3 Hp3. apply ret_Ok in H. destruct H as [H _]. discriminate H.
    + io_bind H u3 Hp3. apply ret_Ok in H. destruct H as [H _].
      inversion H. discriminate.
  - io_bind H u3 Hp3. apply ret_Ok in H. destruct H as [H _]. discriminate H.
Qed.

(** The three ways the run continues after the initialization phase. *)
Lemma main_init_raises tr e tr1 :
  fetch_vehicles w tr = (Raise e, tr1) ->
  main w tr = (Raise e, if exn_is_Exception e
                        then tr1 ++ [Print (Json (init_error_record e))]
                        else tr1).
Proof.
  intros H. unfold main, IO.bind, IO.try_except. rewrite H.
  destruct (exn_is_Exception e); reflexivity.
Qed.

Lemma main_init_returns tr tr1 :
  fetch_vehicles w tr = (Ok None, tr1) -> main w tr = (Ok tt, tr1).
Proof.
  intros H. unfold main, IO.bind, IO.try_except. rewrite H. reflexivity.
Qed.

Lemma main_loop tr vs tr1 :
  fetch_vehicles w tr = (Ok (Some vs), tr1) ->
  main w tr =
  match build_rows (utcnow w (clock_reads tr1)) vs [] with
  | Ok rows => _insert_into_bigquery w rows (tr1 ++ [Now])
  | Raise e => (Raise e, tr1 ++ [Now])
  end.
Proof.
  intros H. unfold main, IO.bind, IO.try_except. rewrite H.
  unfold now, IO.lift.
  destruct (build_rows (utcnow w (clock_reads tr1)) vs []); reflexivity.
Qed.

(** The row errors of a response can be printed. *)
Lemma json_values_serializable (errors : list json) :
  forallb json_serializable (List.map json_value errors) = true.
Proof.
  induction errors as [|[v Hv] errors IH]; [reflexivity|].
  cbn [List.map forallb json_value proj1_sig]. now rewrite Hv, IH.
Qed.

(** What a non-empty batch does to the trace. *)
Lemma insert_run rows tr :
  rows <> [] ->
  _insert_into_bigquery w rows tr =
  match insert_rows_json w (table_id w) rows with
  | Raise e => (Raise e, tr ++ [InsertRowsJson (table_id w) rows])
  | Ok [] =>
      (Ok tt, tr ++ [InsertRowsJson (table_id w) rows;
                     Print (Text (lit "Successfully loaded "
                                  ++ of_N (N.of_nat (List.length rows))
                                  ++ lit " rows into " ++ table_id w))])
  | Ok errors =>
      (Ok tt, tr ++ [InsertRowsJson (table_id w) rows;
                     Print (Json (insert_error_record errors))])
  end.
Proof.
  intros Hne. destruct rows as [|row rows]; [contradiction|].
  unfold _insert_into_bigquery, IO.bind, print_json, print, IO.raise, IO.call.
  destruct (insert_rows_json w (table_id w) (row :: rows)) as [[|err errors]|e];
    try reflexivity.
  - now rewrite <- app_assoc.
  - change (json_serializable
              (PDict [(lit "severity", PStr (lit "ERROR"));
                      (lit "message", PStr (lit "BigQuery insert errors"));
                      (lit "errors", PList (List.map json_value (err :: errors)))]))
      with (forallb json_serializable (List.map json_value (err :: errors)) && true).
    rewrite json_values_serializable. cbn [andb].
    now rewrite <- app_assoc.
Qed.

(** A non-empty batch is submitted exactly once. *)
Lemma insert_writes rows tr r tr' :
  rows <> [] ->
  _insert_into_bigquery w rows tr = (r, tr') ->
  store_writes tr' = store_writes tr ++ [rows] /\ clock_reads tr' = clock_reads tr.
Proof.
  intros Hne H. rewrite (insert_run _ _ Hne) in H.
  destruct (insert_rows_json w (table_id w) rows) as [[|err errors]|e];
    inversion H; subst; rewrite store_writes_app, clock_reads_app;
    (split; [reflexivity | exact (Nat.add_0_r _)]).
Qed.

End Run.

(** * The claims *)

(** ** Configuration resolution *)

Section ResolutionClaims.

Variable w : World.

Lemma resolved_at path tr doc doc' tr' i c :
  json_load w path = Ok doc ->
  _build_config_with_secrets w path tr = (Ok doc', tr') ->
  nth_error (connectors_of doc) i = Some c ->
  exists c', nth_error (connectors_of doc') i = Some c' /\ connector_resolved w c c'.
Proof.
  intros Hload H Hc. apply resolve_Ok in H. destruct H as (doc0 & Hload0 & F & _).
  rewrite Hload in Hload0. inversion Hload0; subst doc0.
  eapply Forall2_nth_error; eassumption.
Qed.

(** C1 (amended): when [resolve] returns, every settings value that was a
    ["SECRET:"] string holds the secret stored under the identifier after
    the first colon, decoded as text and stripped, with no white space left
    at either end; and a value that has the secret-reference form afterwards
    is such a fetched text, standing where a reference stood. *)
Theorem resolution_completeness path tr doc doc' tr' :
  json_load w path = Ok doc ->
  unique_keys doc ->
  _build_config_with_secrets w path tr = (Ok doc', tr') ->
  (forall i k s,
      config_value doc i k = Some (PStr s) ->
      startswith SECRET_PREFIX s = true ->
      exists text,
        secret_text w s = Some text
        /\ config_value doc' i k = Some (PStr (strip text))
        /\ trimmed (strip text) = true)
  /\ (forall i k s',
         config_value doc' i k = Some (PStr s') ->
         startswith SECRET_PREFIX s' = true ->
         exists s text,
           config_value doc i k = Some (PStr s)
           /\ startswith SECRET_PREFIX s = true
           /\ secret_text w s = Some text
           /\ s' = strip text).
Proof.
  intros Hload Huniq H. split.
  - intros i k s Hv Hp. unfold config_value in *.
    destruct (nth_error (connectors_of doc) i) as [c|] eqn:Hc; [|discriminate Hv].
    destruct (resolved_at _ _ _ _ _ _ _ Hload H Hc) as (c' & Hc' & R).
    rewrite Hc'. unfold connector_resolved in R.
    destruct (settings c) as [cfg|] eqn:Hs; [|discriminate Hv].
    destruct R as [_ R]. destruct R as (cfg' & Hs' & F).
    { unfold unique_keys in Huniq. rewrite Forall_forall in Huniq.
      apply (Huniq c); [eapply nth_error_In; eassumption | exact Hs]. }
    rewrite Hs'. pose proof (items_resolved_get w _ _ k F) as G.
    rewrite Hv in G. destruct G as (v' & G & Rv).
    unfold resolved_value in Rv. rewrite Hp in Rv. destruct Rv as (text & Ht & ->).
    exists text. split; [exact Ht | split; [exact G | apply strip_trimmed]].
  - intros i k s' Hv Hp. unfold config_value in *.
    destruct (nth_error (connectors_of doc') i) as [c'|] eqn:Hc'; [|discriminate Hv].
    apply resolve_Ok in H. destruct H as (doc0 & Hload0 & F & _).
    rewrite Hload in Hload0. inversion Hload0; subst doc0.
    destruct (Forall2_nth_error_r _ _ _ _ _ F Hc') as (c & Hc & R).
    rewrite Hc. unfold connector_resolved in R.
    destruct (settings c) as [cfg|] eqn:Hs.
    + destruct R as [_ R]. destruct R as (cfg' & Hs' & F2).
      { unfold unique_keys in Huniq. rewrite Forall_forall in Huniq.
        apply (Huniq c); [eapply nth_error_In; eassumption | exact Hs]. }
      rewrite Hs' in Hv. pose proof (items_resolved_get w _ _ k F2) as G.
      destruct (dict_get k cfg) as [v|]; [|congruence].
      destruct G as (v' & G & Rv). rewrite Hv in G. inversion G; subst v'.
      unfold resolved_value in Rv.
      destruct v; try discriminate Rv.
      destruct (startswith SECRET_PREFIX s) eqn:Hps.
      * destruct Rv as (text & Ht & E). inversion E; subst s'.
        exists s, text. repeat split; assumption.
      * inversion Rv; subst s'. congruence.
    + subst c'. rewrite Hs in Hv. discriminate Hv.
Qed.

End ResolutionClaims.

Lemma sample_unique_keys : unique_keys Sample.doc.
Proof.
  unfold unique_keys. repeat constructor.
  intros cfg H. cbv in H. inversion H; subst cfg. clear H.
  repeat constructor; cbv; intuition discriminate.
Qed.

Lemma resolution_completeness_witness :
  json_load Sample.padded_world Sample.config_path = Ok Sample.doc
  /\ unique_keys Sample.doc
  /\ _build_config_with_secrets Sample.padded_world Sample.config_path []
     = (Ok Sample.resolved_doc, Sample.resolve_trace)
  /\ secret_text Sample.padded_world (lit "SECRET:vw-password") = Some (lit " hunter2 ")
  /\ config_value Sample.resolved_doc 0 (lit "password") = Some (PStr (lit "hunter2"))
  /\ trimmed (lit "hunter2") = true.
Proof.
  assert (Hrun : _build_config_with_secrets Sample.padded_world Sample.config_path []
                 = (Ok Sample.resolved_doc, Sample.resolve_trace)) by reflexivity.
  split; [reflexivity|]. split; [exact sample_unique_keys|]. split; [exact Hrun|].
  destruct (resolution_completeness Sample.padded_world Sample.config_path []
              Sample.doc Sample.resolved_doc Sample.resolve_trace
              eq_refl sample_unique_keys Hrun) as [P _].
  destruct (P O (lit "password") (lit "SECRET:vw-password") eq_refl eq_refl)
    as (text & Ht & Hv & Htrim).
  assert (E : text = lit " hunter2 ").
  { change (Some (lit " hunter2 ") = Some text) in Ht. now inversion Ht. }
  subst text. split; [reflexivity|]. split; [exact Hv | exact Htrim].
Defined.

(** C1, as stated, fails: the secret stored for a reference may itself be a
    text that begins with ["SECRET:"]; resolution then returns a document in
    which the value still has the secret-reference form. *)
Lemma reference_form_survives :
  _build_config_with_secrets Sample.echo_world Sample.config_path []
  = (Ok Sample.doc, Sample.resolve_trace)
  /\ config_value Sample.doc 0 (lit "password") = Some (PStr (lit "SECRET:vw-password"))
  /\ is_secret_ref (PStr (lit "SECRET:vw-password")) = true.
Proof. repeat split; reflexivity. Qed.

Section ResolutionFrame.

Variable w : World.

(** C9: resolution looks only at the immediate values of each connector's
    ['config'] mapping, and only at strings: every value that is not a
    string with the prefix (a number, a list, a sub-mapping, whatever it
    contains) is left as loaded, and the secret store is called exactly for
    the references found at that level, in document order. *)
Theorem resolution_one_level path tr doc doc' tr' :
  json_load w path = Ok doc ->
  unique_keys doc ->
  _build_config_with_secrets w path tr = (Ok doc', tr') ->
  (forall i k v,
      config_value doc i k = Some v ->
      is_secret_ref v = false ->
      config_value doc' i k = Some v)
  /\ secret_fetches tr'
     = secret_fetches tr ++ flat_map (connector_refs w) (connectors_of doc).
Proof.
  intros Hload Huniq H. split.
  - intros i k v Hv Hn. unfold config_value in *.
    destruct (nth_error (connectors_of doc) i) as [c|] eqn:Hc; [|discriminate Hv].
    destruct (resolved_at w _ _ _ _ _ _ _ Hload H Hc) as (c' & Hc' & R).
    rewrite Hc'. unfold connector_resolved in R.
    destruct (settings c) as [cfg|] eqn:Hs; [|discriminate Hv].
    destruct R as [_ R]. destruct R as (cfg' & Hs' & F).
    { unfold unique_keys in Huniq. rewrite Forall_forall in Huniq.
      apply (Huniq c); [eapply nth_error_In; eassumption | exact Hs]. }
    rewrite Hs'. pose proof (items_resolved_get w _ _ k F) as G.
    rewrite Hv in G. destruct G as (v' & G & Rv).
    unfold resolved_value, is_secret_ref in Rv, Hn.
    destruct v; try (now subst v'). rewrite Hn in Rv. now subst v'.
  - apply resolve_Ok in H. destruct H as (doc0 & Hload0 & _ & ->).
    rewrite Hload in Hload0. inversion Hload0; subst doc0.
    rewrite secret_fetches_app. f_equal.
    change (secret_fetches (LoadJson path :: ?l)) with (secret_fetches l).
    apply secret_fetches_names.
Qed.

(** C3: if the fetch of any reference in a connector's settings fails,
    [resolve] raises instead of returning a document, and the run raises
    before the connectivity client is handed any configuration. *)
Theorem resolution_fails_closed path doc i c cfg k s e :
  json_load w path = Ok doc ->
  nth_error (connectors_of doc) i = Some c ->
  settings c = Some cfg ->
  In (k, PStr s) cfg ->
  startswith SECRET_PREFIX s = true ->
  access_secret_version w (secret_name w (after_first colon s)) = Raise e ->
  (forall tr, exists e' tr', _build_config_with_secrets w path tr = (Raise e', tr'))
  /\ (path = lit "config.json" ->
      exists e' tr',
        main w [] = (Raise e', tr')
        /\ forall config, ~ In (NewCarConnectivity config) tr').
Proof.
  intros Hload Hc Hs Hin Hp Hfail.
  assert (Hraise : forall tr, exists e' tr',
             _build_config_with_secrets w path tr = (Raise e', tr')).
  { intros tr.
    destruct (_build_config_with_secrets w path tr) as [[doc'|e'] tr'] eqn:H;
      [|now exists e', tr'].
    exfalso.
    destruct (resolved_at w _ _ _ _ _ _ _ Hload H Hc) as (c' & _ & R).
    unfold connector_resolved in R. rewrite Hs in R. destruct R as [F _].
    rewrite Forall_forall in F. destruct (F _ Hin) as (v' & Rv).
    unfold resolved_value in Rv. cbn [snd] in Rv. rewrite Hp in Rv.
    destruct Rv as (text & Ht & _). unfold secret_text in Ht.
    rewrite Hfail in Ht. discriminate Ht. }
  split; [exact Hraise|]. intros ->.
  destruct (Hraise []) as (e' & tr1 & H).
  assert (Hf : fetch_vehicles w [] = (Raise e', tr1)).
  { unfold fetch_vehicles. now apply bind_Raise. }
  rewrite (main_init_raises w _ _ _ Hf).
  destruct (emits_resolve w _ _ _ _ H) as (ext & E & F). cbn [app] in E. subst ext.
  rewrite Forall_forall in F.
  eexists. eexists. split; [reflexivity|]. intros config Hn.
  destruct (exn_is_Exception e').
  - apply in_app_or in Hn. destruct Hn as [Hn|[Hn|[]]]; [|discriminate Hn].
    exact (F _ Hn).
  - exact (F _ Hn).
Qed.

End ResolutionFrame.

Lemma resolution_one_level_witness :
  json_load Sample.padded_world Sample.config_path = Ok Sample.doc
  /\ unique_keys Sample.doc
  /\ _build_config_with_secrets Sample.padded_world Sample.config_path []
     = (Ok Sample.resolved_doc, Sample.resolve_trace)
  /\ config_value Sample.resolved_doc 0 (lit "extra")
     = Some (PList [PStr (lit "SECRET:in-a-list")])
  /\ config_value Sample.resolved_doc 0 (lit "proxy")
     = Some (PDict [(lit "token", PStr (lit "SECRET:in-a-dict"))])
  /\ config_value Sample.resolved_doc 0 (lit "interval") = Some (PInt 300)
  /\ secret_fetches Sample.resolve_trace
     = [lit "projects/my-project/secrets/vw-password/versions/latest"].
Proof.
  assert (Hrun : _build_config_with_secrets Sample.padded_world Sample.config_path []
                 = (Ok Sample.resolved_doc, Sample.resolve_trace)) by reflexivity.
  split; [reflexivity|]. split; [exact sample_unique_keys|]. split; [exact Hrun|].
  destruct (resolution_one_level Sample.padded_world Sample.config_path []
              Sample.doc Sample.resolved_doc Sample.resolve_trace
              eq_refl sample_unique_keys Hrun) as [P Q].
  split; [apply (P O (lit "extra")); reflexivity|].
  split; [apply (P O (lit "proxy")); reflexivity|].
  split; [apply (P O (lit "interval")); reflexivity|].
  exact Q.
Defined.

Lemma resolution_fails_closed_witness :
  json_load (Sample.world_without_secrets Sample.PermissionDenied) Sample.config_path
  = Ok Sample.doc
  /\ access_secret_version (Sample.world_without_secrets Sample.PermissionDenied)
       (lit "projects/my-project/secrets/vw-password/versions/latest")
     = Raise Sample.PermissionDenied
  /\ (forall tr, exists e' tr',
        _build_config_with_secrets (Sample.world_without_secrets Sample.PermissionDenied)
          Sample.config_path tr = (Raise e', tr'))
  /\ exists e' tr',
      main (Sample.world_without_secrets Sample.PermissionDenied) [] = (Raise e', tr')
      /\ forall config, ~ In (NewCarConnectivity config) tr'.
Proof.
  split; [reflexivity|]. split; [reflexivity|].
  destruct (resolution_fails_closed
              (Sample.world_without_secrets Sample.PermissionDenied)
              Sample.config_path Sample.doc O
              (PDict
                 [(lit "type", PStr (lit "volkswagen"));
                  (lit "config",
                   PDict
                     [(lit "username", PStr (lit "driver@example.org"));
                      (lit "password", PStr (lit "SECRET:vw-password"));
                      (lit "interval", PInt 300);
                      (lit "extra", PList [PStr (lit "SECRET:in-a-list")]);
                      (lit "proxy",
                       PDict [(lit "token", PStr (lit "SECRET:in-a-dict"))])])])
              [(lit "username", PStr (lit "driver@example.org"));
               (lit "password", PStr (lit "SECRET:vw-password"));
               (lit "interval", PInt 300);
               (lit "extra", PList [PStr (lit "SECRET:in-a-list")]);
               (lit "proxy", PDict [(lit "token", PStr (lit "SECRET:in-a-dict"))])]
              (lit "password") (lit "SECRET:vw-password") Sample.PermissionDenied
              eq_refl eq_refl eq_refl (or_intror (or_introl eq_refl)) eq_refl eq_refl)
    as [P Q].
  split; [exact P | exact (Q eq_refl)].
Defined.

(** ** The pipeline *)

Section PipelineClaims.

Variable w : World.

Lemma build_rows_nonempty ts vs rows :
  vs <> [] -> build_rows ts vs [] = Ok rows ->
  rows <> [] /\ Forall2 (fun v row => row_of ts v = Ok row) vs rows.
Proof.
  intros Hne H. apply build_rows_Ok in H. destruct H as (new & -> & F).
  cbn [app]. split; [|exact F].
  destruct F; [contradiction | discriminate].
Qed.


(** C5: when some vehicle of the list lacks a required sub-object, the run
    raises out of the loop, right after the clock was read: nothing is
    written to the store and nothing more is logged. *)
Theorem missing_subobject_aborts vs tr1 v path :
  fetch_vehicles w [] = (Ok (Some vs), tr1) ->
  In v vs ->
  In path required_paths ->
  ~ present v path ->
  exists e,
    build_rows (utcnow w 0) vs [] = Raise e
    /\ main w [] = (Raise e, tr1 ++ [Now])
    /\ store_writes (tr1 ++ [Now]) = [].
Proof.
  intros Hf Hv Hp Hmiss.
  destruct (fetch_vehicles_quiet w _ _ Hf) as [Hclock Hquiet].
  rewrite (main_loop w _ _ _ Hf), Hclock.
  destruct (build_rows (utcnow w 0) vs []) as [rows|e] eqn:Hb.
  - exfalso. apply build_rows_Ok in Hb. destruct Hb as (new & _ & F).
    assert (Hrow : exists row, row_of (utcnow w 0) v = Ok row).
    { clear Hf. induction F as [|v0 row vs new Hr F IH]; [contradiction|].
      destruct Hv as [->|Hv]; [now exists row | now apply IH]. }
    destruct Hrow as (row & Hr). apply row_of_present in Hr.
    rewrite Forall_forall in Hr. exact (Hmiss (Hr _ Hp)).
  - exists e. split; [reflexivity|]. split; [reflexivity|].
    now rewrite store_writes_app, Hquiet.
Qed.

(** C4: a non-empty batch for which the store answers with row errors is
    submitted once, the record with the message and the errors is printed,
    and neither the write nor the run raises. *)
Theorem best_effort_write rows errors :
  rows <> [] ->
  insert_rows_json w (table_id w) rows = Ok errors ->
  errors <> [] ->
  (forall tr,
      _insert_into_bigquery w rows tr
      = (Ok tt, tr ++ [InsertRowsJson (table_id w) rows;
                       Print (Json (insert_error_record errors))]))
  /\ (forall vs tr1,
         fetch_vehicles w [] = (Ok (Some vs), tr1) ->
         build_rows (utcnow w 0) vs [] = Ok rows ->
         main w [] = (Ok tt, tr1 ++ [Now; InsertRowsJson (table_id w) rows;
                                     Print (Json (insert_error_record errors))])).
Proof.
  intros Hne Hi He.
  assert (Hrun : forall tr,
             _insert_into_bigquery w rows tr
             = (Ok tt, tr ++ [InsertRowsJson (table_id w) rows;
                              Print (Json (insert_error_record errors))])).
  { intros tr. rewrite (insert_run w _ _ Hne), Hi.
    destruct errors as [|err errors']; [contradiction | reflexivity]. }
  split; [exact Hrun|]. intros vs tr1 Hf Hb.
  destruct (fetch_vehicles_quiet w _ _ Hf) as [Hclock _].
  rewrite (main_loop w _ _ _ Hf), Hclock, Hb, Hrun. now rewrite <- app_assoc.
Qed.

(** C8: every row of a submitted batch carries the same ingestion
    timestamp, the rendering of the first and only reading of the clock. *)
Theorem timestamp_uniformity r tr' rows :
  main w [] = (r, tr') ->
  In rows (store_writes tr') ->
  Forall (fun row => field row "ingestion_timestamp"
                     = Some (PStr (isoformat (utcnow w 0)))) rows
  /\ clock_reads tr' = 1%nat.
Proof.
  intros Hm Hin.
  destruct (fetch_vehicles w []) as [[[vs|]|e] tr1] eqn:Hf;
    destruct (fetch_vehicles_quiet w _ _ Hf) as [Hclock Hquiet].
  - rewrite (main_loop w _ _ _ Hf), Hclock in Hm.
    destruct (build_rows (utcnow w 0) vs []) as [rows0|e] eqn:Hb.
    + destruct (build_rows_nonempty _ _ _ (fetch_vehicles_nonempty w _ _ _ Hf) Hb)
        as [Hne F].
      destruct (insert_writes w _ _ _ _ Hne Hm) as [Hw Hc].
      rewrite Hw, store_writes_app, Hquiet in Hin.
      destruct Hin as [<-|[]].
      split.
      * clear Hb Hne Hm Hw Hf Hc. induction F as [|v row vs rows0 Hr F IH]; constructor.
        -- apply row_of_Ok in Hr. destruct Hr as (soc & _ & Hr).
           apply make_row_Ok in Hr.
           destruct Hr as (x1 & x2 & x3 & x4 & x5 & x6 & x7 & x8 & x9 & x10 & x11
                           & _ & _ & _ & _ & _ & _ & _ & _ & _ & _ & _ & ->).
           reflexivity.
        -- exact IH.
      * rewrite Hc, clock_reads_app, Hclock. reflexivity.
    + inversion Hm; subst. rewrite store_writes_app, Hquiet in Hin. destruct Hin.
  - rewrite (main_init_returns w _ _ Hf) in Hm. inversion Hm; subst.
    rewrite Hquiet in Hin. destruct Hin.
  - rewrite (main_init_raises w _ _ _ Hf) in Hm. inversion Hm; subst.
    destruct (exn_is_Exception e).
    + rewrite store_writes_app, Hquiet in Hin. destruct Hin.
    + rewrite Hquiet in Hin. destruct Hin.
Qed.

(** C10 (amended): an error of the initialization phase whose class derives
    from [Exception] is answered by one record, with the message, the name
    of its type and its text, and is raised again unchanged; an error that
    does not derive from [Exception] leaves the run unchanged as well, but
    without any record. *)
Theorem init_errors_logged_and_reraised e tr1 :
  fetch_vehicles w [] = (Raise e, tr1) ->
  (exn_is_Exception e = true ->
   main w [] = (Raise e, tr1 ++ [Print (Json (init_error_record e))])
   /\ field (init_error_record e) "message"
      = Some (PStr (lit "Failed during initialization or data fetch"))
   /\ field (init_error_record e) "exception_type" = Some (PStr (lit (exn_type e)))
   /\ field (init_error_record e) "error" = Some (PStr (exn_text e)))
  /\ (exn_is_Exception e = false -> main w [] = (Raise e, tr1)).
Proof.
  intros Hf. rewrite (main_init_raises w _ _ _ Hf).
  split; intros ->; [|reflexivity].
  repeat split; reflexivity.
Qed.

(** The operations of the initialization phase: a failure of any of them is
    the failure of the phase. *)
Lemma init_stage_failures e :
  (json_load w (lit "config.json") = Raise e ->
   fetch_vehicles w [] = (Raise e, [LoadJson (lit "config.json")]))
  /\ (forall tr0,
         _build_config_with_secrets w (lit "config.json") [] = (Raise e, tr0) ->
         fetch_vehicles w [] = (Raise e, tr0))
  /\ (forall config tr0,
         _build_config_with_secrets w (lit "config.json") [] = (Ok config, tr0) ->
         let tr1 := tr0 ++ [Print (Text (lit "Initializing CarConnectivity with dynamic config..."));
                            NewCarConnectivity config] in
         (CarConnectivity w config = Raise e -> fetch_vehicles w [] = (Raise e, tr1))
         /\ (forall cc,
                CarConnectivity w config = Ok cc ->
                (fetch_all cc = Raise e ->
                 fetch_vehicles w [] = (Raise e, tr1 ++ [FetchAll]))
                /\ (fetch_all cc = Ok tt ->
                    (get_garage cc = Raise e ->
                     fetch_vehicles w [] = (Raise e, tr1 ++ [FetchAll; GetGarage]))
                    /\ (forall g,
                           get_garage cc = Ok (Some g) ->
                           list_vehicles g = Raise e ->
                           fetch_vehicles w [] =
                           (Raise e, tr1 ++ [FetchAll; GetGarage; ListVehicles]))))).
Proof.
  split; [|split].
  - intros H. unfold fetch_vehicles, _build_config_with_secrets, IO.bind, IO.call.
    now rewrite H.
  - intros tr0 H. unfold fetch_vehicles. now apply bind_Raise.
  - intros config tr0 Hc tr1. subst tr1. unfold fetch_vehicles.
    rewrite (bind_step _ _ _ _ _ Hc).
    unfold IO.bind, print, IO.call. split.
    + intros ->. now rewrite <- app_assoc.
    + intros cc ->. split.
      * intros ->. now rewrite <- !app_assoc.
      * intros ->. split.
        -- intros ->. now rewrite <- !app_assoc.
        -- intros g -> ->. now rewrite <- !app_assoc.
Qed.

End PipelineClaims.

(** *** The claims on the sample fleet *)





Lemma odometer_missing :
  ~ present (Sample.car_without_odometer "WVWZZZ4") ["odometer"; "value"].
Proof. intros [x Hx]. discriminate Hx. Qed.

Lemma missing_subobject_aborts_witness :
  fetch_vehicles Sample.broken_world []
  = (Ok (Some Sample.broken_fleet), Sample.init_trace Sample.resolved_doc Sample.found_two)
  /\ In (Sample.car_without_odometer "WVWZZZ4") Sample.broken_fleet
  /\ In ["odometer"; "value"] required_paths
  /\ ~ present (Sample.car_without_odometer "WVWZZZ4") ["odometer"; "value"]
  /\ exists e,
      build_rows (utcnow Sample.broken_world 0) Sample.broken_fleet [] = Raise e
      /\ main Sample.broken_world []
         = (Raise e, Sample.init_trace Sample.resolved_doc Sample.found_two ++ [Now])
      /\ store_writes (Sample.init_trace Sample.resolved_doc Sample.found_two ++ [Now]) = [].
Proof.
  assert (Hv : In (Sample.car_without_odometer "WVWZZZ4") Sample.broken_fleet)
    by (right; left; reflexivity).
  assert (Hp : In ["odometer"; "value"] required_paths)
    by (right; left; reflexivity).
  split; [reflexivity|]. split; [exact Hv|]. split; [exact Hp|].
  split; [exact odometer_missing|].
  exact (missing_subobject_aborts Sample.broken_world Sample.broken_fleet
           (Sample.init_trace Sample.resolved_doc Sample.found_two)
           (Sample.car_without_odometer "WVWZZZ4") ["odometer"; "value"]
           eq_refl Hv Hp odometer_missing).
Defined.

Lemma best_effort_write_witness :
  Sample.fleet_rows <> []
  /\ insert_rows_json Sample.rejecting_world (table_id Sample.rejecting_world)
       Sample.fleet_rows = Ok Sample.row_errors
  /\ Sample.row_errors <> []
  /\ main Sample.rejecting_world []
     = (Ok tt,
        Sample.init_trace Sample.resolved_doc Sample.found_two
        ++ [Now;
            InsertRowsJson (table_id Sample.rejecting_world) Sample.fleet_rows;
            Print (Json (insert_error_record Sample.row_errors))]).
Proof.
  assert (H1 : Sample.fleet_rows <> []) by discriminate.
  assert (H3 : Sample.row_errors <> []) by discriminate.
  split; [exact H1|]. split; [reflexivity|]. split; [exact H3|].
  destruct (best_effort_write Sample.rejecting_world Sample.fleet_rows
              Sample.row_errors H1 eq_refl H3) as [_ Hmain].
  exact (Hmain Sample.fleet (Sample.init_trace Sample.resolved_doc Sample.found_two)
               eq_refl eq_refl).
Defined.

Lemma timestamp_uniformity_witness :
  main Sample.padded_world [] = (Ok tt, Sample.run_trace)
  /\ In Sample.fleet_rows (store_writes Sample.run_trace)
  /\ Forall (fun row => field row "ingestion_timestamp"
                        = Some (PStr (lit "2024-11-02T13:04:05+00:00")))
            Sample.fleet_rows
  /\ clock_reads Sample.run_trace = 1%nat.
Proof.
  assert (Hin : In Sample.fleet_rows (store_writes Sample.run_trace))
    by (left; reflexivity).
  split; [reflexivity|]. split; [exact Hin|].
  exact (timestamp_uniformity Sample.padded_world (Ok tt) Sample.run_trace
           Sample.fleet_rows eq_refl Hin).
Defined.

Lemma init_errors_logged_and_reraised_witness :
  fetch_vehicles (Sample.world_without_secrets Sample.PermissionDenied) []
  = (Raise Sample.PermissionDenied, Sample.resolve_trace)
  /\ exn_is_Exception Sample.PermissionDenied = true
  /\ main (Sample.world_without_secrets Sample.PermissionDenied) []
     = (Raise Sample.PermissionDenied,
        Sample.resolve_trace
        ++ [Print (Json (init_error_record Sample.PermissionDenied))]).
Proof.
  split; [reflexivity|]. split; [reflexivity|].
  destruct (init_errors_logged_and_reraised
              (Sample.world_without_secrets Sample.PermissionDenied)
              Sample.PermissionDenied Sample.resolve_trace eq_refl) as [P _].
  exact (proj1 (P eq_refl)).
Defined.

(** C10, as stated, fails for an error that does not derive from
    [Exception]: a [KeyboardInterrupt] during the fetch of a secret passes
    the handler; the run raises it, and no record is printed. *)
Lemma interrupt_is_not_logged :
  fetch_vehicles (Sample.world_without_secrets Sample.KeyboardInterrupt) []
  = (Raise Sample.KeyboardInterrupt, Sample.resolve_trace)
  /\ main (Sample.world_without_secrets Sample.KeyboardInterrupt) []
     = (Raise Sample.KeyboardInterrupt, Sample.resolve_trace)
  /\ ~ In (Print (Json (init_error_record Sample.KeyboardInterrupt)))
          Sample.resolve_trace.
Proof.
  split; [reflexivity|]. split; [reflexivity|].
  intros [H|[H|[]]]; discriminate H.
Qed.

(** ** The fields of a row *)

Section RowClaims.

Variable ts : datetime.

(** C6 (amended): the [external_temperature] of every row is the binary64
    difference of the vehicle's outside temperature, taken as a float, and
    273.15; for 300.0 this is 26.850000000000023. *)
Theorem temperature_conversion v row :
  row_of ts v = Ok row ->
  exists kelvin t,
    getpath v ["outside_temperature"; "value"] = Ok kelvin
    /\ as_float kelvin = Some t
    /\ field row "external_temperature"
       = Some (PFloat (PrimFloat.sub t 273.15%float))
    /\ (t = 300%float ->
        field row "external_temperature" = Some (PFloat 26.850000000000023%float)).
Proof.
  intros Hr. apply row_of_Ok in Hr. destruct Hr as (soc & _ & Hr).
  apply make_row_Ok in Hr.
  destruct Hr as (x1 & x2 & x3 & x4 & x5 & x6 & kelvin & ext & x9 & x10 & x11
                  & _ & _ & _ & _ & _ & _ & Hk & He & _ & _ & _ & ->).
  pose proof (sub_float_as_float kelvin KELVIN_OFFSET) as Hsub.
  destruct (as_float kelvin) as [t|] eqn:Ht.
  - exists kelvin, t. rewrite Hsub in He. inversion He; subst ext.
    split; [exact Hk|]. split; [exact Ht|].
    split; [reflexivity|]. intros ->. reflexivity.
  - destruct Hsub as (e & Hsub). rewrite Hsub in He. discriminate He.
Qed.

(** C7 (amended): when [get_electric_drive()] returns a false value the
    state of charge is read without error and the row has [soc] null; when
    the call itself raises (a vehicle without that method) the same exception
    leaves the loop body and there is no row; when [position] is a false value
    the row has [latitude] and [longitude] null; when [position] cannot be read
    there is no row; when [position] is a true value the two fields are what
    its [latitude.value] and [longitude.value] hold. *)
Theorem optional_fields v :
  (forall d,
      call0 v "get_electric_drive" = Ok d -> truthy d = false ->
      soc_of v = Ok PNone
      /\ forall row, row_of ts v = Ok row -> field row "soc" = Some PNone)
  /\ (forall e,
         call0 v "get_electric_drive" = Raise e ->
         soc_of v = Raise e /\ row_of ts v = Raise e)
  /\ (forall p row,
         getattr v "position" = Ok p -> truthy p = false ->
         row_of ts v = Ok row ->
         field row "latitude" = Some PNone /\ field row "longitude" = Some PNone)
  /\ (forall e,
         getattr v "position" = Raise e ->
         forall row, row_of ts v <> Ok row)
  /\ (forall p row,
         getattr v "position" = Ok p -> truthy p = true ->
         row_of ts v = Ok row ->
         exists lat lon,
           getpath p ["latitude"; "value"] = Ok lat
           /\ getpath p ["longitude"; "value"] = Ok lon
           /\ field row "latitude" = Some lat
           /\ field row "longitude" = Some lon).
Proof.
  split; [|split; [|split; [|split]]].
  - intros d Hd Hfalse.
    assert (Hsoc : soc_of v = Ok PNone).
    { unfold soc_of. rewrite Hd. cbn [Res.bind]. now rewrite Hfalse. }
    split; [exact Hsoc|]. intros row Hr.
    unfold row_of in Hr. rewrite Hsoc in Hr. cbn [Res.bind] in Hr.
    apply make_row_Ok in Hr.
    destruct Hr as (x1 & x2 & x3 & x4 & x5 & x6 & x7 & x8 & x9 & x10 & x11
                    & _ & _ & _ & _ & _ & _ & _ & _ & _ & _ & _ & ->).
    reflexivity.
  - intros e He.
    assert (Hsoc : soc_of v = Raise e).
    { unfold soc_of. rewrite He. reflexivity. }
    split; [exact Hsoc|]. unfold row_of. rewrite Hsoc. reflexivity.
  - intros p row Hp Hfalse Hr.
    apply row_of_Ok in Hr. destruct Hr as (soc & _ & Hr).
    apply make_row_Ok in Hr.
    destruct Hr as (x1 & x2 & x3 & x4 & x5 & x6 & x7 & x8 & lat & lon & x11
                    & _ & _ & _ & _ & _ & _ & _ & _ & Hlat & Hlon & _ & ->).
    unfold position_field in Hlat, Hlon. rewrite Hp in Hlat, Hlon.
    cbn [Res.bind] in Hlat, Hlon. rewrite Hfalse in Hlat, Hlon.
    inversion Hlat; inversion Hlon; subst. split; reflexivity.
  - intros e He row Hr.
    apply row_of_Ok in Hr. destruct Hr as (soc & _ & Hr).
    apply make_row_Ok in Hr.
    destruct Hr as (x1 & x2 & x3 & x4 & x5 & x6 & x7 & x8 & lat & lon & x11
                    & _ & _ & _ & _ & _ & _ & _ & _ & Hlat & _ & _ & _).
    unfold position_field in Hlat. rewrite He in Hlat. discriminate Hlat.
  - intros p row Hp Htrue Hr.
    apply row_of_Ok in Hr. destruct Hr as (soc & _ & Hr).
    apply make_row_Ok in Hr.
    destruct Hr as (x1 & x2 & x3 & x4 & x5 & x6 & x7 & x8 & lat & lon & x11
                    & _ & _ & _ & _ & _ & _ & _ & _ & Hlat & Hlon & _ & ->).
    unfold position_field in Hlat, Hlon. rewrite Hp in Hlat, Hlon.
    cbn [Res.bind] in Hlat, Hlon. rewrite Htrue in Hlat, Hlon.
    rewrite (getpath_cons _ _ _ _ Hp) in Hlat.
    rewrite (getpath_cons _ _ _ _ Hp) in Hlon.
    exists lat, lon. repeat split; assumption || reflexivity.
Qed.

End RowClaims.

Lemma temperature_conversion_witness :
  row_of (Sample.clock 0) Sample.warm_car = Ok Sample.warm_row
  /\ getpath Sample.warm_car ["outside_temperature"; "value"] = Ok (PFloat 300%float)
  /\ field Sample.warm_row "external_temperature"
     = Some (PFloat 26.850000000000023%float)
  /\ row_of (Sample.clock 0) Sample.electric_car = Ok Sample.electric_row
  /\ getpath Sample.electric_car ["outside_temperature"; "value"] = Ok (PInt 280)
  /\ field Sample.electric_row "external_temperature"
     = Some (PFloat (PrimFloat.sub 280%float 273.15%float)).
Proof.
  split; [reflexivity|]. split; [reflexivity|].
  destruct (temperature_conversion (Sample.clock 0) Sample.warm_car Sample.warm_row
              eq_refl) as (kelvin & t & Hk & Ht & Hf & _).
  change (Ok (PFloat 300%float) = Ok kelvin) in Hk. inversion Hk; subst kelvin.
  change (Some 300%float = Some t) in Ht. inversion Ht; subst t.
  split; [exact Hf|]. split; [reflexivity|]. split; [reflexivity|].
  destruct (temperature_conversion (Sample.clock 0) Sample.electric_car
              Sample.electric_row eq_refl) as (kelvin & t & Hk' & Ht' & Hf' & _).
  change (Ok (PInt 280) = Ok kelvin) in Hk'. inversion Hk'; subst kelvin.
  change (Some 280%float = Some t) in Ht'. inversion Ht'; subst t.
  exact Hf'.
Defined.

(** C6, as stated, fails on its example: at 300.0 Kelvin the field is
    26.850000000000023, which is not the float 26.85. *)
Lemma celsius_of_300_is_not_26_85 :
  row_of (Sample.clock 0) Sample.warm_car = Ok Sample.warm_row
  /\ field Sample.warm_row "external_temperature"
     = Some (PFloat 26.850000000000023%float)
  /\ PFloat 26.850000000000023%float <> PFloat 26.85%float.
Proof.
  split; [reflexivity|]. split; [reflexivity|].
  intros H.
  apply (f_equal (fun v => match v with PFloat f => Prim2SF f | _ => S754_nan end)) in H.
  vm_compute in H. discriminate H.
Qed.

Lemma optional_fields_witness :
  call0 Sample.warm_car "get_electric_drive" = Ok PNone
  /\ getattr Sample.warm_car "position" = Ok PNone
  /\ row_of (Sample.clock 0) Sample.warm_car = Ok Sample.warm_row
  /\ soc_of Sample.warm_car = Ok PNone
  /\ field Sample.warm_row "soc" = Some PNone
  /\ field Sample.warm_row "latitude" = Some PNone
  /\ field Sample.warm_row "longitude" = Some PNone
  /\ call0 Sample.generic_car "get_electric_drive"
     = Raise (AttributeError Sample.generic_car "get_electric_drive")
  /\ row_of (Sample.clock 0) Sample.generic_car
     = Raise (AttributeError Sample.generic_car "get_electric_drive").
Proof.
  split; [reflexivity|]. split; [reflexivity|]. split; [reflexivity|].
  destruct (optional_fields (Sample.clock 0) Sample.warm_car)
    as (P1 & _ & P2 & _).
  destruct (P1 PNone eq_refl eq_refl) as [Hsoc Hrow].
  split; [exact Hsoc|]. split; [exact (Hrow Sample.warm_row eq_refl)|].
  destruct (P2 PNone Sample.warm_row eq_refl eq_refl eq_refl) as [Hlat Hlon].
  split; [exact Hlat|]. split; [exact Hlon|]. split; [reflexivity|].
  destruct (optional_fields (Sample.clock 0) Sample.generic_car)
    as (_ & P3 & _).
  exact (proj2 (P3 _ eq_refl)).
Defined.

(** C7, as stated, fails in its last part: a position object that holds no
    latitude yet is present, and the row has a null [latitude] next to a
    [longitude]. *)
Lemma position_present_latitude_null :
  getattr Sample.car_without_fix "position"
  = Ok (Sample.position PNone (PFloat 11.5%float))
  /\ truthy (Sample.position PNone (PFloat 11.5%float)) = true
  /\ row_of (Sample.clock 0) Sample.car_without_fix = Ok Sample.row_without_fix
  /\ field Sample.row_without_fix "latitude" = Some PNone
  /\ field Sample.row_without_fix "longitude" = Some (PFloat 11.5%float).
Proof. repeat split; reflexivity. Qed.

(** * Further properties *)

(** ** Dicts and runs in general *)

Lemma dict_set_same_value k v d : dict_get k d = Some v -> dict_set k v d = d.
Proof.
  induction d as [|[k' v'] d IH]; cbn [dict_get dict_set]; [discriminate|].
  destruct (PyStr.eqb k k'); intros H.
  - now inversion H.
  - now rewrite IH.
Qed.

Lemma dict_get_set_other k k' v d :
  k' <> k -> dict_get k' (dict_set k v d) = dict_get k' d.
Proof.
  intros Hne. induction d as [|[k0 v0] d IH]; cbn [dict_get dict_set].
  - destruct (PyStr.eqb k' k) eqn:E; [apply eqb_eq in E; contradiction | reflexivity].
  - destruct (PyStr.eqb k k0) eqn:E; cbn [dict_get].
    + apply eqb_eq in E. subst k0.
      destruct (PyStr.eqb k' k) eqn:E'; [apply eqb_eq in E'; contradiction | reflexivity].
    + destruct (PyStr.eqb k' k0); [reflexivity | exact IH].
Qed.

(** A run of a bind, whatever its outcome. *)
Lemma bind_inv {A B} (m : M A) (k : A -> M B) tr r tr' :
  IO.bind m k tr = (r, tr') ->
  (exists e, m tr = (Raise e, tr') /\ r = Raise e)
  \/ (exists a tr1, m tr = (Ok a, tr1) /\ k a tr1 = (r, tr')).
Proof.
  unfold IO.bind. destruct (m tr) as [[a|e] tr1]; intros H.
  - right. now exists a, tr1.
  - left. inversion H; subst. now exists e.
Qed.

Lemma Forall2_keys (w : World) cfg cfg' :
  Forall2 (item_resolved w) cfg cfg' -> keys cfg' = keys cfg.
Proof.
  induction 1 as [|kv kv' cfg cfg' [Hk _] F IH]; [reflexivity|].
  unfold keys in *. cbn [List.map]. now rewrite Hk, IH.
Qed.

(** ** The resolver on documents without work to do *)

Section ResolverIdentity.

Variable w : World.


Lemma resolve_items_idle its acc tr r tr' :
  item_refs w its = [] ->
  IO.foldM (resolve_item w) its acc tr = (r, tr') ->
  r = Ok acc /\ tr' = tr.
Proof.
  revert acc tr. induction its as [|[k v] its IH]; cbn [IO.foldM]; intros acc tr Hn H.
  - inversion H. now split.
  - rewrite (item_refs_cons w (k, v) its) in Hn. apply app_eq_nil in Hn.
    destruct Hn as [Hkv Hrest].
    assert (Hitem : resolve_item w acc (k, v) tr = (Ok acc, tr)).
    { unfold resolve_item. unfold item_refs in Hkv. cbn [flat_map snd app] in Hkv.
      destruct v; try reflexivity.
      destruct (startswith SECRET_PREFIX s); [discriminate Hkv | reflexivity]. }
    rewrite (bind_step _ _ _ _ _ Hitem) in H. now apply IH.
Qed.

Lemma resolve_connector_idle c tr c' tr' :
  connector_refs w c = [] ->
  resolve_connector w c tr = (Ok c', tr') ->
  c' = c /\ tr' = tr.
Proof.
  unfold connector_refs, resolve_connector. intros Hn H.
  io_pure H has_config E.
  destruct c; try discriminate E; cbn [py_in settings] in *;
    inversion E; subst has_config; clear E.
  - destruct (contains (lit "config") s).
    + io_pure H x E. discriminate E.
    + io_ret H. now split.
  - destruct (existsb _ l).
    + io_pure H x E. discriminate E.
    + io_ret H. now split.
  - destruct (dict_get (lit "config") d) as [x|] eqn:G.
    + io_pure H config E. cbn [getitem] in E. rewrite G in E.
      inversion E; subst config. clear E.
      io_pure H its E.
      destruct x; try discriminate E. inversion E; subst its. clear E.
      io_bind H cfg Hloop. io_ret H.
      destruct (resolve_items_idle _ _ _ _ _ Hn Hloop) as [Hcfg ->].
      inversion Hcfg; subst cfg. split; [|reflexivity].
      now rewrite (dict_set_same_value _ _ _ G).
    + io_ret H. now split.
Qed.

Lemma resolve_connectors_idle l tr l' tr' :
  flat_map (connector_refs w) l = [] ->
  IO.mapM (resolve_connector w) l tr = (Ok l', tr') ->
  l' = l /\ tr' = tr.
Proof.
  revert tr l' tr'.
  induction l as [|c l IH]; cbn [IO.mapM flat_map]; intros tr l' tr' Hn H.
  - io_ret H. now split.
  - apply app_eq_nil in Hn. destruct Hn as [Hc Hl].
    io_bind H c' Hrun. io_bind H rest Hrest. io_ret H.
    destruct (resolve_connector_idle _ _ _ _ Hc Hrun) as [-> ->].
    destruct (IH _ _ _ Hl Hrest) as [-> ->]. now split.
Qed.

(** X2: when no setting of any connector is a reference, what [resolve]
    returns is the document as loaded, and the only event is the load. *)
Theorem resolve_identity_without_references path tr doc doc' tr' :
  json_load w path = Ok doc ->
  flat_map (connector_refs w) (connectors_of doc) = [] ->
  _build_config_with_secrets w path tr = (Ok doc', tr') ->
  doc' = doc /\ tr' = tr ++ [LoadJson path].
Proof.
  intros Hload Hn H. unfold _build_config_with_secrets in H.
  io_ask H doc0 E. rewrite Hload in E. inversion E; subst doc0. clear E.
  io_pure H has_cc E. destruct has_cc; [|io_ret H; now split].
  clear E. io_pure H cc E.
  destruct doc; try discriminate E. cbn [getitem] in E.
  destruct (dict_get (lit "carConnectivity") d) as [x|] eqn:Gcc; [|discriminate E].
  inversion E; subst x. clear E.
  io_pure H has_connectors E. destruct has_connectors; [|io_ret H; now split].
  clear E. io_pure H conns E.
  destruct cc; try discriminate E. cbn [getitem] in E.
  destruct (dict_get (lit "connectors") d0) as [x|] eqn:Gc; [|discriminate E].
  inversion E; subst x. clear E.
  io_bind H conns' Hc. io_ret H. unfold resolve_connectors in Hc.
  io_pure Hc elems E. io_bind Hc elems' Hmap. io_ret Hc.
  cbn [connectors_of] in Hn. rewrite Gcc, Gc in Hn.
  assert (Hrefs : flat_map (connector_refs w) elems = []).
  { destruct conns; try discriminate E; cbn [py_iter] in E; inversion E; subst elems.
    - apply connector_refs_chars.
    - exact Hn.
    - apply connector_refs_keys. }
  destruct (resolve_connectors_idle _ _ _ _ Hrefs Hmap) as [-> ->].
  split; [|reflexivity].
  assert (Hconns : match conns with PList _ => PList elems | _ => conns end = conns).
  { destruct conns; try reflexivity. cbn [py_iter] in E. now inversion E. }
  rewrite Hconns.
  now rewrite (dict_set_same_value _ _ _ Gc), (dict_set_same_value _ _ _ Gcc).
Qed.

End ResolverIdentity.

(** ** What resolution leaves in place *)

Section ResolverFrame.

Variable w : World.

(** The loop body touches nothing of a connector but its ['config']. *)
Lemma resolve_connector_frame c tr c' tr' k :
  resolve_connector w c tr = (Ok c', tr') ->
  k <> lit "config" ->
  getitem c' k = getitem c k.
Proof.
  unfold resolve_connector. intros H Hk.
  io_pure H has_config E.
  destruct c; try discriminate E; cbn [py_in] in *;
    inversion E; subst has_config; clear E.
  - destruct (contains (lit "config") s); [io_pure H x E; discriminate E | now io_ret H].
  - destruct (existsb _ l); [io_pure H x E; discriminate E | now io_ret H].
  - destruct (dict_get (lit "config") d) as [x|] eqn:G; [|now io_ret H].
    io_pure H config E. io_pure H its E0. io_bind H cfg Hloop. io_ret H.
    cbn [getitem]. now rewrite (dict_get_set_other _ _ _ _ Hk).
Qed.

Lemma resolve_connectors_frame l tr l' tr' :
  IO.mapM (resolve_connector w) l tr = (Ok l', tr') ->
  Forall2 (fun c c' => forall k, k <> lit "config" -> getitem c' k = getitem c k) l l'.
Proof.
  revert tr l' tr'.
  induction l as [|c l IH]; cbn [IO.mapM]; intros tr l' tr' H.
  - io_ret H. constructor.
  - io_bind H c' Hc. io_bind H rest Hrest. io_ret H.
    constructor; [|eapply IH; eassumption].
    intros k Hk. eapply resolve_connector_frame; eassumption.
Qed.

(** X3: resolution keeps the shape of the document: the same number of
    connector entries, each with the keys of its settings in the same order,
    and an entry without settings unchanged. *)
Theorem resolve_preserves_shape path tr doc doc' tr' :
  json_load w path = Ok doc ->
  unique_keys doc ->
  _build_config_with_secrets w path tr = (Ok doc', tr') ->
  List.length (connectors_of doc') = List.length (connectors_of doc)
  /\ forall i c,
      nth_error (connectors_of doc) i = Some c ->
      exists c',
        nth_error (connectors_of doc') i = Some c'
        /\ match settings c with
           | Some cfg => exists cfg', settings c' = Some cfg' /\ keys cfg' = keys cfg
           | None => c' = c
           end.
Proof.
  intros Hload Huniq H. pose proof H as H0.
  apply resolve_Ok in H0. destruct H0 as (doc0 & Hload0 & F & _).
  rewrite Hload in Hload0. inversion Hload0; subst doc0.
  split; [symmetry; eapply Forall2_length; eassumption|].
  intros i c Hc.
  destruct (Forall2_nth_error _ _ _ _ _ F Hc) as (c' & Hc' & R).
  exists c'. split; [exact Hc'|]. unfold connector_resolved in R.
  destruct (settings c) as [cfg|] eqn:Hs; [|exact R].
  destruct R as [_ R]. destruct R as (cfg' & Hs' & F2).
  { unfold unique_keys in Huniq. rewrite Forall_forall in Huniq.
    apply (Huniq c); [eapply nth_error_In; eassumption | exact Hs]. }
  exists cfg'. split; [exact Hs' | eapply Forall2_keys; eassumption].
Qed.

(** X4: resolution writes only below the settings: every other key of the
    root mapping, of the ['carConnectivity'] section and of each connector
    entry reads as before. *)
Theorem resolve_frame path tr doc doc' tr' :
  json_load w path = Ok doc ->
  _build_config_with_secrets w path tr = (Ok doc', tr') ->
  (forall k, k <> lit "carConnectivity" -> getitem doc' k = getitem doc k)
  /\ (forall cc cc' k,
         getitem doc (lit "carConnectivity") = Ok cc ->
         getitem doc' (lit "carConnectivity") = Ok cc' ->
         k <> lit "connectors" ->
         getitem cc' k = getitem cc k)
  /\ (forall i c c' k,
         nth_error (connectors_of doc) i = Some c ->
         nth_error (connectors_of doc') i = Some c' ->
         k <> lit "config" ->
         getitem c' k = getitem c k).
Proof.
  intros Hload H. unfold _build_config_with_secrets in H.
  io_ask H doc0 E. rewrite Hload in E. inversion E; subst doc0. clear E.
  assert (Hsame : doc' = doc ->
            (forall k, k <> lit "carConnectivity" -> getitem doc' k = getitem doc k)
            /\ (forall cc cc' k,
                   getitem doc (lit "carConnectivity") = Ok cc ->
                   getitem doc' (lit "carConnectivity") = Ok cc' ->
                   k <> lit "connectors" ->
                   getitem cc' k = getitem cc k)
            /\ (forall i c c' k,
                   nth_error (connectors_of doc) i = Some c ->
                   nth_error (connectors_of doc') i = Some c' ->
                   k <> lit "config" ->
                   getitem c' k = getitem c k)).
  { intros ->. split; [reflexivity|]. split.
    - intros cc cc' k H1 H2 _. rewrite H1 in H2. now inversion H2.
    - intros i c c' k H1 H2 _. rewrite H1 in H2. now inversion H2. }
  io_pure H has_cc E. destruct has_cc; [|io_ret H; now apply Hsame].
  clear E. io_pure H cc E.
  destruct doc; try discriminate E. cbn [getitem] in E.
  destruct (dict_get (lit "carConnectivity") d) as [x|] eqn:Gcc; [|discriminate E].
  inversion E; subst x. clear E.
  io_pure H has_connectors E. destruct has_connectors; [|io_ret H; now apply Hsame].
  clear E. io_pure H conns E.
  destruct cc; try discriminate E. cbn [getitem] in E.
  destruct (dict_get (lit "connectors") d0) as [x|] eqn:Gc; [|discriminate E].
  inversion E; subst x. clear E Hsame.
  io_bind H conns' Hc. io_ret H. unfold resolve_connectors in Hc.
  io_pure Hc elems E. io_bind Hc elems' Hmap. io_ret Hc.
  split; [|split].
  - intros k Hk. cbn [getitem]. now rewrite (dict_get_set_other _ _ _ _ Hk).
  - intros cc cc' k H1 H2 Hk. cbn [getitem] in H1, H2.
    rewrite Gcc in H1. rewrite dict_get_set_same in H2.
    inversion H1; inversion H2; subst. cbn [getitem].
    now rewrite (dict_get_set_other _ _ _ _ Hk).
  - intros i c c' k H1 H2 Hk. cbn [connectors_of] in H1, H2.
    rewrite Gcc, Gc in H1. rewrite !dict_get_set_same in H2.
    destruct conns; try (destruct i; discriminate H1).
    cbn [py_iter] in E. inversion E; subst elems.
    apply resolve_connectors_frame in Hmap.
    destruct (Forall2_nth_error _ _ _ _ _ Hmap H1) as (c0 & Hc0 & R).
    rewrite H2 in Hc0. inversion Hc0; subst c0. now apply R.
Qed.

End ResolverFrame.

Lemma resolve_preserves_shape_witness :
  json_load Sample.padded_world Sample.config_path = Ok Sample.doc
  /\ unique_keys Sample.doc
  /\ _build_config_with_secrets Sample.padded_world Sample.config_path []
     = (Ok Sample.resolved_doc, Sample.resolve_trace)
  /\ List.length (connectors_of Sample.resolved_doc) = 1%nat
  /\ exists c' cfg',
      nth_error (connectors_of Sample.resolved_doc) 0 = Some c'
      /\ settings c' = Some cfg'
      /\ keys cfg' = [lit "username"; lit "password"; lit "interval";
                      lit "extra"; lit "proxy"].
Proof.
  assert (Hrun : _build_config_with_secrets Sample.padded_world Sample.config_path []
                 = (Ok Sample.resolved_doc, Sample.resolve_trace)) by reflexivity.
  split; [reflexivity|]. split; [exact sample_unique_keys|]. split; [exact Hrun|].
  destruct (resolve_preserves_shape Sample.padded_world Sample.config_path []
              Sample.doc Sample.resolved_doc Sample.resolve_trace
              eq_refl sample_unique_keys Hrun) as [Hlen Hat].
  split; [exact Hlen|].
  destruct (connectors_of Sample.doc) as [|c rest] eqn:Hcs; [discriminate Hcs|].
  inversion Hcs; subst c rest.
  destruct (Hat O _ eq_refl) as (c' & Hc' & cfg' & Hs' & Hk).
  exists c', cfg'. repeat split; assumption.
Defined.

Lemma resolve_frame_witness :
  json_load Sample.padded_world Sample.config_path = Ok Sample.doc
  /\ _build_config_with_secrets Sample.padded_world Sample.config_path []
     = (Ok Sample.resolved_doc, Sample.resolve_trace)
  /\ (forall cc cc',
         getitem Sample.doc (lit "carConnectivity") = Ok cc ->
         getitem Sample.resolved_doc (lit "carConnectivity") = Ok cc' ->
         getitem cc' (lit "log_level") = getitem cc (lit "log_level"))
  /\ (forall c c',
         nth_error (connectors_of Sample.doc) 0 = Some c ->
         nth_error (connectors_of Sample.resolved_doc) 0 = Some c' ->
         getitem c' (lit "type") = getitem c (lit "type")).
Proof.
  assert (Hrun : _build_config_with_secrets Sample.padded_world Sample.config_path []
                 = (Ok Sample.resolved_doc, Sample.resolve_trace)) by reflexivity.
  split; [reflexivity|]. split; [exact Hrun|].
  destruct (resolve_frame Sample.padded_world Sample.config_path []
              Sample.doc Sample.resolved_doc Sample.resolve_trace eq_refl Hrun)
    as (_ & Hcc & Hconn).
  split.
  - intros cc cc' H1 H2. apply (Hcc cc cc' _ H1 H2). intros H. discriminate H.
  - intros c c' H1 H2. apply (Hconn O c c' _ H1 H2). intros H. discriminate H.
Defined.


Lemma resolve_identity_without_references_witness :
  json_load (Sample.world_of Sample.plain_doc) Sample.config_path = Ok Sample.plain_doc
  /\ flat_map (connector_refs (Sample.world_of Sample.plain_doc))
       (connectors_of Sample.plain_doc) = []
  /\ _build_config_with_secrets (Sample.world_of Sample.plain_doc)
       Sample.config_path []
     = (Ok Sample.plain_doc, [LoadJson Sample.config_path]).
Proof.
  split; [reflexivity|]. split; [reflexivity|].
  destruct (_build_config_with_secrets (Sample.world_of Sample.plain_doc)
              Sample.config_path []) as [r tr'] eqn:Hrun.
  assert (Hr : exists doc', r = Ok doc').
  { cbv in Hrun. inversion Hrun. eexists. reflexivity. }
  destruct Hr as (doc' & ->).
  destruct (resolve_identity_without_references (Sample.world_of Sample.plain_doc)
              Sample.config_path [] Sample.plain_doc doc' tr'
              eq_refl eq_refl Hrun) as [-> ->].
  reflexivity.
Defined.

(** ** How resolution fails *)

Section ResolverFailures.

Variable w : World.

(** A reference asks the store once, whatever the outcome. *)
Lemma resolve_item_any cfg k v tr r tr' :
  resolve_item w cfg (k, v) tr = (r, tr') ->
  tr' = tr ++ List.map AccessSecretVersion (item_refs w [(k, v)]).
Proof.
  unfold resolve_item, item_refs. cbn [fst snd flat_map List.map app].
  destruct v; intros H; try (inversion H; now rewrite app_nil_r).
  destruct (startswith SECRET_PREFIX s) eqn:Hp; [|inversion H; now rewrite app_nil_r].
  unfold IO.bind at 1 in H. unfold IO.lift at 1 in H.
  rewrite (split1_after_first _ Hp) in H.
  unfold IO.bind at 1 in H. unfold _get_secret in H.
  unfold IO.bind at 1 in H. unfold IO.call in H.
  destruct (access_secret_version w (secret_name w (after_first colon s)))
    as [data|e]; [|now inversion H].
  destruct (Utf8.decode data); now inversion H.
Qed.

Lemma Forall_removelast {A} (P : A -> Prop) l :
  Forall P l -> Forall P (removelast l).
Proof.
  induction 1 as [|x l Hx Hl IH]; cbn [removelast]; [constructor|].
  destruct l; [constructor | now constructor].
Qed.

Lemma Forall_removelast_app {A} (P : A -> Prop) l1 l2 :
  Forall P l1 -> Forall P (removelast l2) -> Forall P (removelast (l1 ++ l2)).
Proof.
  intros H1 H2. destruct l2 as [|x l2].
  - rewrite app_nil_r. now apply Forall_removelast.
  - rewrite removelast_app by discriminate. apply Forall_app. now split.
Qed.

(** One item asks the store at most once. *)
Lemma item_refs_single k v : removelast (item_refs w [(k, v)]) = [].
Proof.
  unfold item_refs. cbn [flat_map snd]. rewrite app_nil_r.
  destruct v; try reflexivity. now destruct (startswith SECRET_PREFIX s).
Qed.

(** What a resolved value read was readable. *)
Lemma resolved_readable its :
  Forall (fun kv => exists v', resolved_value w (snd kv) v') its ->
  Forall (fun n => secret_readable w n = true) (item_refs w its).
Proof.
  induction 1 as [|[k v] its (v' & R) _ IH]; [constructor|].
  rewrite (item_refs_cons w (k, v) its). apply Forall_app. split; [|exact IH].
  unfold item_refs. cbn [flat_map snd] in *. rewrite app_nil_r.
  unfold resolved_value in R.
  destruct v; try constructor.
  destruct (startswith SECRET_PREFIX s); [|constructor].
  destruct R as (text & Ht & _). constructor; [|constructor].
  unfold secret_text in Ht. unfold secret_readable.
  destruct (access_secret_version w (secret_name w (after_first colon s)));
    [|discriminate Ht].
  now rewrite Ht.
Qed.

Lemma connector_resolved_readable c c' :
  connector_resolved w c c' ->
  Forall (fun n => secret_readable w n = true) (connector_refs w c).
Proof.
  unfold connector_resolved, connector_refs.
  destruct (settings c) as [cfg|]; [|constructor].
  intros [F _]. now apply resolved_readable.
Qed.

(** The fetches of a loop over items: an initial segment of the references,
    and every fetch but the last one was readable. *)
Lemma resolve_items_prefix its acc tr r tr' :
  IO.foldM (resolve_item w) its acc tr = (r, tr') ->
  exists fetched rest,
    tr' = tr ++ List.map AccessSecretVersion fetched
    /\ item_refs w its = fetched ++ rest
    /\ Forall (fun n => secret_readable w n = true) (removelast fetched).
Proof.
  revert acc tr. induction its as [|[k v] its IH]; cbn [IO.foldM]; intros acc tr H.
  - inversion H. exists [], [].
    split; [now rewrite app_nil_r | split; [reflexivity | constructor]].
  - rewrite (item_refs_cons w (k, v) its).
    apply bind_inv in H. destruct H as [(e & H & _) | (acc1 & tr1 & H & Hk)].
    + apply resolve_item_any in H. subst tr'.
      exists (item_refs w [(k, v)]), (item_refs w its).
      split; [reflexivity | split; [reflexivity|]].
      rewrite item_refs_single. constructor.
    + pose proof (resolve_item_Ok _ _ _ _ _ _ _ H) as (v' & R & _ & _).
      apply resolve_item_any in H. subst tr1.
      apply IH in Hk. destruct Hk as (fetched & rest & -> & -> & F).
      exists (item_refs w [(k, v)] ++ fetched), rest.
      split; [now rewrite map_app, app_assoc|].
      split; [now rewrite app_assoc|].
      apply Forall_removelast_app; [|exact F].
      apply (resolved_readable [(k, v)]). constructor; [|constructor].
      now exists v'.
Qed.

Lemma resolve_connector_prefix c tr r tr' :
  resolve_connector w c tr = (r, tr') ->
  exists fetched rest,
    tr' = tr ++ List.map AccessSecretVersion fetched
    /\ connector_refs w c = fetched ++ rest
    /\ Forall (fun n => secret_readable w n = true) (removelast fetched).
Proof.
  unfold resolve_connector, connector_refs. intros H.
  assert (Hidle : forall x : list pystr, tr' = tr ->
            exists fetched rest,
              tr' = tr ++ List.map AccessSecretVersion fetched
              /\ x = fetched ++ rest
              /\ Forall (fun n => secret_readable w n = true) (removelast fetched)).
  { intros x ->. exists [], x.
    split; [now rewrite app_nil_r | split; [reflexivity | constructor]]. }
  unfold IO.bind at 1 in H. unfold IO.lift at 1 in H.
  destruct c; cbn [py_in settings] in *;
    try (apply Hidle; now inversion H).
  - destruct (contains (lit "config") s); apply Hidle; now inversion H.
  - destruct (existsb _ l); apply Hidle; now inversion H.
  - destruct (dict_get (lit "config") d) as [x|] eqn:G; [|apply Hidle; now inversion H].
    unfold IO.bind at 1 in H. unfold IO.lift at 1 in H. cbn [getitem] in H.
    rewrite G in H.
    unfold IO.bind at 1 in H. unfold IO.lift at 1 in H.
    destruct x; cbn [items] in H; try (apply Hidle; now inversion H).
    apply bind_inv in H. destruct H as [(e & H & _) | (cfg & tr1 & H & Hk)].
    + eapply resolve_items_prefix; eassumption.
    + inversion Hk; subst. eapply resolve_items_prefix; eassumption.
Qed.

Lemma resolve_connectors_prefix l tr r tr' :
  IO.mapM (resolve_connector w) l tr = (r, tr') ->
  exists fetched rest,
    tr' = tr ++ List.map AccessSecretVersion fetched
    /\ flat_map (connector_refs w) l = fetched ++ rest
    /\ Forall (fun n => secret_readable w n = true) (removelast fetched).
Proof.
  revert tr r. induction l as [|c l IH]; cbn [IO.mapM flat_map]; intros tr r H.
  - inversion H. exists [], [].
    split; [now rewrite app_nil_r | split; [reflexivity | constructor]].
  - apply bind_inv in H. destruct H as [(e & H & _) | (c' & tr1 & H & Hk)].
    + apply resolve_connector_prefix in H.
      destruct H as (fetched & rest & -> & -> & F).
      exists fetched, (rest ++ flat_map (connector_refs w) l).
      split; [reflexivity | split; [now rewrite app_assoc | exact F]].
    + apply resolve_connector_Ok in H. destruct H as [R ->].
      apply connector_resolved_readable in R.
      assert (Hrest : exists r0, IO.mapM (resolve_connector w) l
                        (tr ++ List.map AccessSecretVersion (connector_refs w c))
                      = (r0, tr')).
      { apply bind_inv in Hk. destruct Hk as [(e & Hk & _) | (rest' & tr2 & Hk & Hret)].
        - now exists (Raise e).
        - inversion Hret; subst. now exists (Ok rest'). }
      destruct Hrest as (r0 & Hrest). apply IH in Hrest.
      destruct Hrest as (f2 & r2 & -> & -> & F).
      exists (connector_refs w c ++ f2), r2.
      split; [now rewrite map_app, app_assoc|].
      split; [now rewrite app_assoc|].
      now apply Forall_removelast_app.
Qed.

Lemma resolved_connectors_readable l l' :
  Forall2 (connector_resolved w) l l' ->
  Forall (fun n => secret_readable w n = true) (flat_map (connector_refs w) l).
Proof.
  induction 1 as [|c c' l l' R _ IH]; cbn [flat_map]; [constructor|].
  apply Forall_app. split; [|exact IH].
  now apply (connector_resolved_readable c c').
Qed.

(** When all calls but the last were readable, an unreadable one is the
    last. *)
Lemma unreadable_is_last fetched pre name post :
  Forall (fun n => secret_readable w n = true) (removelast fetched) ->
  fetched = pre ++ name :: post ->
  secret_readable w name = false ->
  post = [].
Proof.
  intros F -> Hname. destruct post as [|x post]; [reflexivity|].
  rewrite removelast_app in F by discriminate.
  apply Forall_app in F. destruct F as [_ F].
  cbn [removelast] in F. inversion F as [|? ? Hn _]; subst.
  rewrite Hname in Hn. discriminate Hn.
Qed.

End ResolverFailures.

Section ResolverFailureClaims.

Variable w : World.

(** X5: whatever the outcome of [resolve], the calls to the secret store
    are an initial segment of the document's references in document order,
    all of them when it returns; every secret of a run that returns was
    readable; and a call whose secret is not readable (refused by the store,
    or not UTF-8) is the last call of the run, which raises: after a failure
    no later reference is fetched. *)
Theorem fetches_are_a_prefix path tr doc r tr' :
  json_load w path = Ok doc ->
  _build_config_with_secrets w path tr = (r, tr') ->
  exists fetched rest,
    tr' = tr ++ LoadJson path :: List.map AccessSecretVersion fetched
    /\ flat_map (connector_refs w) (connectors_of doc) = fetched ++ rest
    /\ (forall doc', r = Ok doc' -> rest = [])
    /\ (forall doc', r = Ok doc' ->
        Forall (fun n => secret_readable w n = true) fetched)
    /\ (forall pre name post,
           fetched = pre ++ name :: post ->
           secret_readable w name = false ->
           post = [] /\ exists e, r = Raise e).
Proof.
  intros Hload H.
  assert (Hcore : exists fetched rest,
            tr' = tr ++ LoadJson path :: List.map AccessSecretVersion fetched
            /\ flat_map (connector_refs w) (connectors_of doc) = fetched ++ rest
            /\ (forall doc' : pyval, r = Ok doc' ->
                rest = [] /\ Forall (fun n => secret_readable w n = true) fetched)
            /\ Forall (fun n => secret_readable w n = true) (removelast fetched)).
  { destruct r as [doc'|e].
    { apply resolve_Ok in H. destruct H as (doc0 & Hload0 & R & ->).
      rewrite Hload in Hload0. inversion Hload0; subst doc0.
      apply resolved_connectors_readable in R.
      exists (flat_map (connector_refs w) (connectors_of doc)), [].
      split; [reflexivity|]. split; [now rewrite app_nil_r|].
      split; [intros _ _; split; [reflexivity | exact R]|].
      now apply Forall_removelast. }
    assert (Hidle : tr' = tr ++ [LoadJson path] ->
              exists fetched rest,
                tr' = tr ++ LoadJson path :: List.map AccessSecretVersion fetched
                /\ flat_map (connector_refs w) (connectors_of doc) = fetched ++ rest
                /\ (forall doc' : pyval, Raise e = Ok doc' ->
                    rest = []
                    /\ Forall (fun n => secret_readable w n = true) fetched)
                /\ Forall (fun n => secret_readable w n = true) (removelast fetched)).
    { intros ->. exists [], (flat_map (connector_refs w) (connectors_of doc)).
      split; [reflexivity|]. split; [reflexivity|].
      split; [discriminate | constructor]. }
    unfold _build_config_with_secrets in H.
    unfold IO.bind at 1 in H. unfold IO.call in H. rewrite Hload in H.
    unfold IO.bind at 1 in H. unfold IO.lift at 1 in H.
    destruct (py_in (lit "carConnectivity") doc) as [[|]|e0] eqn:E1;
      try (apply Hidle; now inversion H).
    unfold IO.bind at 1 in H. unfold IO.lift at 1 in H.
    destruct (getitem doc (lit "carConnectivity")) as [cc|e0] eqn:E2;
      try (apply Hidle; now inversion H).
    unfold IO.bind at 1 in H. unfold IO.lift at 1 in H.
    destruct (py_in (lit "connectors") cc) as [[|]|e0] eqn:E3;
      try (apply Hidle; now inversion H).
    unfold IO.bind at 1 in H. unfold IO.lift at 1 in H.
    destruct (getitem cc (lit "connectors")) as [conns|e0] eqn:E4;
      try (apply Hidle; now inversion H).
    apply bind_inv in H. destruct H as [(e1 & H & _) | (conns' & tr1 & _ & Hk)];
      [|discriminate Hk].
    unfold resolve_connectors in H.
    unfold IO.bind at 1 in H. unfold IO.lift at 1 in H.
    destruct (py_iter conns) as [elems|e0] eqn:E5; [|apply Hidle; now inversion H].
    assert (Hmap : exists r0, IO.mapM (resolve_connector w) elems (tr ++ [LoadJson path])
                              = (r0, tr')).
    { apply bind_inv in H. destruct H as [(e2 & H & _) | (x & tr2 & H & Hret)].
      - now exists (Raise e2).
      - discriminate Hret. }
    destruct Hmap as (r0 & Hmap). apply resolve_connectors_prefix in Hmap.
    destruct Hmap as (fetched & rest & -> & Hrefs & Hgood).
    destruct doc; try discriminate E2. cbn [getitem] in E2.
    destruct (dict_get (lit "carConnectivity") d) as [x|] eqn:Gcc; [|discriminate E2].
    inversion E2; subst x.
    destruct cc; try discriminate E4. cbn [getitem] in E4.
    destruct (dict_get (lit "connectors") d0) as [x|] eqn:Gc; [|discriminate E4].
    inversion E4; subst x.
    cbn [connectors_of]. rewrite Gcc, Gc.
    destruct conns; try discriminate E5; cbn [py_iter] in E5; inversion E5; subst elems.
    - rewrite connector_refs_chars in Hrefs. symmetry in Hrefs.
      apply app_eq_nil in Hrefs. destruct Hrefs as [-> ->].
      exists [], []. split; [now rewrite <- app_assoc|].
      split; [reflexivity | split; [discriminate | constructor]].
    - exists fetched, rest. split; [now rewrite <- app_assoc|].
      split; [exact Hrefs | split; [discriminate | exact Hgood]].
    - rewrite connector_refs_keys in Hrefs. symmetry in Hrefs.
      apply app_eq_nil in Hrefs. destruct Hrefs as [-> ->].
      exists [], []. split; [now rewrite <- app_assoc|].
      split; [reflexivity | split; [discriminate | constructor]]. }
  destruct Hcore as (fetched & rest & Htr & Hrefs & Hok & Hgood).
  exists fetched, rest. split; [exact Htr|]. split; [exact Hrefs|].
  split; [intros doc' E; exact (proj1 (Hok doc' E))|].
  split; [intros doc' E; exact (proj2 (Hok doc' E))|].
  intros pre name post Hsplit Hname.
  split; [exact (unreadable_is_last w fetched pre name post Hgood Hsplit Hname)|].
  destruct r as [doc'|e]; [|now exists e].
  destruct (Hok doc' eq_refl) as [_ F]. rewrite Hsplit in F.
  apply Forall_app in F. destruct F as [_ F].
  inversion F as [|? ? Hn _]; subst. rewrite Hname in Hn. discriminate Hn.
Qed.

Lemma resolve_connector_shape c tr c' tr' :
  resolve_connector w c tr = (Ok c', tr') -> connector_shape c = true.
Proof.
  unfold resolve_connector, connector_shape. intros H.
  io_pure H has_config E.
  destruct c; try discriminate E; cbn [py_in] in *;
    inversion E; subst has_config; clear E.
  - destruct (contains (lit "config") s); [io_pure H x E; discriminate E | reflexivity].
  - destruct (existsb _ l); [io_pure H x E; discriminate E | reflexivity].
  - destruct (dict_get (lit "config") d) as [x|] eqn:G; [|reflexivity].
    io_pure H config E. cbn [getitem] in E. rewrite G in E. inversion E; subst config.
    io_pure H its E0. destruct x; try discriminate E0. reflexivity.
Qed.

Lemma resolve_connectors_shape l tr l' tr' :
  IO.mapM (resolve_connector w) l tr = (Ok l', tr') ->
  forallb connector_shape l = true.
Proof.
  revert tr l' tr'. induction l as [|c l IH]; cbn [IO.mapM forallb]; intros tr l' tr' H.
  - reflexivity.
  - io_bind H c' Hc. io_bind H rest Hrest. io_ret H.
    rewrite (resolve_connector_shape _ _ _ _ Hc). cbn [andb].
    eapply IH; eassumption.
Qed.

(** X6: a connector entry the loop body cannot handle makes [resolve]
    raise: a number, a boolean or null ([TypeError]), a list or string that
    contains ["config"] ([TypeError]), or a dict whose ['config'] is not a
    dict ([AttributeError]).  Alone, the body raises these errors before any
    call to the secret store. *)
Theorem malformed_connector_raises path doc i c :
  json_load w path = Ok doc ->
  nth_error (connectors_of doc) i = Some c ->
  connector_shape c = false ->
  (forall tr, exists e tr', _build_config_with_secrets w path tr = (Raise e, tr'))
  /\ (forall tr, exists e,
         resolve_connector w c tr = (Raise e, tr)
         /\ (exn_type e = "TypeError" \/ exn_type e = "AttributeError")).
Proof.
  intros Hload Hc Hshape. split.
  - intros tr.
    destruct (_build_config_with_secrets w path tr) as [[doc'|e] tr'] eqn:H;
      [|now exists e, tr'].
    exfalso. unfold _build_config_with_secrets in H.
    io_ask H doc0 E. rewrite Hload in E. inversion E; subst doc0. clear E.
    assert (Hnil : connectors_of doc = [] -> False).
    { intros Hn. rewrite Hn in Hc. destruct i; discriminate Hc. }
    io_pure H has_cc E. destruct has_cc.
    2:{ apply Hnil. destruct doc; try reflexivity. cbn [py_in] in E. cbn [connectors_of].
        destruct (dict_get (lit "carConnectivity") d); [discriminate E | reflexivity]. }
    clear E. io_pure H cc E.
    destruct doc; try discriminate E. cbn [getitem] in E.
    destruct (dict_get (lit "carConnectivity") d) as [x|] eqn:Gcc; [|discriminate E].
    inversion E; subst x. clear E.
    io_pure H has_connectors E. destruct has_connectors.
    2:{ apply Hnil. cbn [connectors_of]. rewrite Gcc.
        destruct cc; try reflexivity. cbn [py_in] in E.
        destruct (dict_get (lit "connectors") d0); [discriminate E | reflexivity]. }
    clear E. io_pure H conns E.
    destruct cc; try discriminate E. cbn [getitem] in E.
    destruct (dict_get (lit "connectors") d0) as [x|] eqn:Gc; [|discriminate E].
    inversion E; subst x. clear E.
    io_bind H conns' Hrun. unfold resolve_connectors in Hrun.
    io_pure Hrun elems E. io_bind Hrun elems' Hmap.
    cbn [connectors_of] in Hc, Hnil. rewrite Gcc, Gc in Hc, Hnil.
    destruct conns; try (now apply Hnil).
    cbn [py_iter] in E. inversion E; subst elems.
    apply resolve_connectors_shape in Hmap. rewrite forallb_forall in Hmap.
    rewrite (Hmap c) in Hshape; [discriminate Hshape|].
    eapply nth_error_In; eassumption.
  - intros tr. unfold resolve_connector, connector_shape in *.
    unfold IO.bind at 1. unfold IO.lift at 1.
    destruct c; cbn [py_in]; try (eexists; split; [reflexivity | now left]).
    + destruct (contains (lit "config") s); [|discriminate Hshape].
      eexists; split; [reflexivity | now left].
    + destruct (existsb _ l); [|discriminate Hshape].
      eexists; split; [reflexivity | now left].
    + destruct (dict_get (lit "config") d) as [x|] eqn:G; [|discriminate Hshape].
      unfold IO.bind at 1. unfold IO.lift at 1. cbn [getitem]. rewrite G.
      unfold IO.bind at 1. unfold IO.lift at 1.
      destruct x; try discriminate Hshape;
        (eexists; split; [reflexivity | now right]).
Qed.

(** X7: a reference whose payload is not well-formed UTF-8 makes [resolve]
    raise, like a failed fetch. *)
Theorem undecodable_secret_fails_closed path doc i c cfg k s data :
  json_load w path = Ok doc ->
  nth_error (connectors_of doc) i = Some c ->
  settings c = Some cfg ->
  In (k, PStr s) cfg ->
  startswith SECRET_PREFIX s = true ->
  access_secret_version w (secret_name w (after_first colon s)) = Ok data ->
  Utf8.decode data = None ->
  forall tr, exists e tr', _build_config_with_secrets w path tr = (Raise e, tr').
Proof.
  intros Hload Hc Hs Hin Hp Hdata Hdec tr.
  destruct (_build_config_with_secrets w path tr) as [[doc'|e'] tr'] eqn:H;
    [|now exists e', tr'].
  exfalso.
  destruct (resolved_at w _ _ _ _ _ _ _ Hload H Hc) as (c' & _ & R).
  unfold connector_resolved in R. rewrite Hs in R. destruct R as [F _].
  rewrite Forall_forall in F. destruct (F _ Hin) as (v' & Rv).
  unfold resolved_value in Rv. cbn [snd] in Rv. rewrite Hp in Rv.
  destruct Rv as (text & Ht & _). unfold secret_text in Ht.
  rewrite Hdata, Hdec in Ht. discriminate Ht.
Qed.

(** X8: the identifier of a reference is everything after the prefix, as
    it stands (further colons, white space or nothing at all): the value
    ["SECRET:" ++ id] asks the store for
    [projects/<project>/secrets/<id>/versions/latest], and the split never
    runs out of parts. *)
Theorem secret_id_is_verbatim cfg k id tr :
  index (split1 colon (SECRET_PREFIX ++ id)) 1 = Ok id
  /\ exists r,
      resolve_item w cfg (k, PStr (SECRET_PREFIX ++ id)) tr
      = (r, tr ++ [AccessSecretVersion (secret_name w id)]).
Proof.
  split; [reflexivity|].
  destruct (resolve_item w cfg (k, PStr (SECRET_PREFIX ++ id)) tr) as [r tr'] eqn:H.
  exists r. f_equal. apply resolve_item_any in H. exact H.
Qed.

End ResolverFailureClaims.

Lemma fetches_are_a_prefix_witness :
  json_load (Sample.world_of (Sample.doc_with (PDict Sample.two_secrets)))
    Sample.config_path
  = Ok (Sample.doc_with (PDict Sample.two_secrets))
  /\ _build_config_with_secrets
       (Sample.world_of (Sample.doc_with (PDict Sample.two_secrets)))
       Sample.config_path []
     = (Raise Sample.PermissionDenied,
        [LoadJson Sample.config_path;
         AccessSecretVersion (lit "projects/my-project/secrets/first/versions/latest")])
  /\ secret_readable (Sample.world_of (Sample.doc_with (PDict Sample.two_secrets)))
       (lit "projects/my-project/secrets/first/versions/latest") = false
  /\ exists fetched rest,
      [LoadJson Sample.config_path;
       AccessSecretVersion (lit "projects/my-project/secrets/first/versions/latest")]
      = [] ++ LoadJson Sample.config_path :: List.map AccessSecretVersion fetched
      /\ [lit "projects/my-project/secrets/first/versions/latest";
          lit "projects/my-project/secrets/second/versions/latest"]
         = fetched ++ rest
      /\ (forall pre post,
             fetched
             = pre ++ lit "projects/my-project/secrets/first/versions/latest" :: post ->
             post = []).
Proof.
  split; [reflexivity|]. split; [reflexivity|]. split; [reflexivity|].
  destruct (fetches_are_a_prefix
              (Sample.world_of (Sample.doc_with (PDict Sample.two_secrets)))
              Sample.config_path [] (Sample.doc_with (PDict Sample.two_secrets))
              (Raise Sample.PermissionDenied)
              [LoadJson Sample.config_path;
               AccessSecretVersion
                 (lit "projects/my-project/secrets/first/versions/latest")]
              eq_refl eq_refl) as (fetched & rest & Ht & Hr & _ & _ & Hlast).
  exists fetched, rest. split; [exact Ht|]. split; [exact Hr|].
  intros pre post Hsplit. exact (proj1 (Hlast pre _ post Hsplit eq_refl)).
Defined.

Lemma malformed_connector_raises_witness :
  json_load (Sample.world_of (Sample.doc_with PNone)) Sample.config_path
  = Ok (Sample.doc_with PNone)
  /\ nth_error (connectors_of (Sample.doc_with PNone)) 0
     = Some (PDict [(lit "config", PNone)])
  /\ connector_shape (PDict [(lit "config", PNone)]) = false
  /\ (forall tr, exists e tr',
        _build_config_with_secrets (Sample.world_of (Sample.doc_with PNone))
          Sample.config_path tr = (Raise e, tr'))
  /\ _build_config_with_secrets (Sample.world_of (Sample.doc_with PNone))
       Sample.config_path []
     = (Raise (AttributeError PNone "items"), [LoadJson Sample.config_path]).
Proof.
  split; [reflexivity|]. split; [reflexivity|]. split; [reflexivity|].
  split; [|reflexivity].
  exact (proj1 (malformed_connector_raises
                  (Sample.world_of (Sample.doc_with PNone)) Sample.config_path
                  (Sample.doc_with PNone) O (PDict [(lit "config", PNone)])
                  eq_refl eq_refl eq_refl)).
Defined.

Lemma undecodable_secret_fails_closed_witness :
  json_load Sample.garbled_world Sample.config_path
  = Ok (Sample.doc_with (PDict Sample.two_secrets))
  /\ access_secret_version Sample.garbled_world
       (lit "projects/my-project/secrets/first/versions/latest")
     = Ok [Byte.xff; Byte.xfe]
  /\ Utf8.decode [Byte.xff; Byte.xfe] = None
  /\ _build_config_with_secrets Sample.garbled_world Sample.config_path []
     = (Raise (UnicodeDecodeError [Byte.xff; Byte.xfe]),
        [LoadJson Sample.config_path;
         AccessSecretVersion (lit "projects/my-project/secrets/first/versions/latest")])
  /\ forall tr, exists e tr',
      _build_config_with_secrets Sample.garbled_world Sample.config_path tr
      = (Raise e, tr').
Proof.
  split; [reflexivity|]. split; [reflexivity|]. split; [reflexivity|].
  split; [reflexivity|].
  exact (undecodable_secret_fails_closed Sample.garbled_world Sample.config_path
           (Sample.doc_with (PDict Sample.two_secrets)) O
           (PDict [(lit "config", PDict Sample.two_secrets)]) Sample.two_secrets
           (lit "username") (lit "SECRET:first") [Byte.xff; Byte.xfe]
           eq_refl eq_refl eq_refl (or_introl eq_refl) eq_refl eq_refl eq_refl).
Defined.

(** ** What [_get_secret] returns *)

Lemma forallb_isspace_rev (s : pystr) :
  forallb isspace s = true -> forallb isspace (rev s) = true.
Proof.
  rewrite !forallb_forall. intros H c Hc. apply H. now apply in_rev.
Qed.

(** [strip] removes white space at the two ends and nothing else. *)
Lemma strip_split (s : pystr) :
  exists pre post,
    s = pre ++ strip s ++ post
    /\ forallb isspace pre = true /\ forallb isspace post = true.
Proof.
  destruct (lstrip_split s) as (pre & E1 & Hpre).
  destruct (lstrip_split (rev (lstrip s))) as (sp & E2 & Hsp).
  exists pre, (rev sp). unfold strip, rstrip.
  split; [|split; [exact Hpre | now apply forallb_isspace_rev]].
  apply (f_equal (@rev N)) in E2. rewrite rev_involutive, rev_app_distr in E2.
  now rewrite <- E2.
Qed.

(** X9: the text [_get_secret] returns is the decoded payload without the
    white space at its two ends; what lies between is returned as it is. *)
Theorem get_secret_trims_the_ends (w : World) secret_id tr result tr' :
  _get_secret w secret_id tr = (Ok result, tr') ->
  exists data text pre post,
    access_secret_version w (secret_name w secret_id) = Ok data
    /\ Utf8.decode data = Some text
    /\ text = pre ++ result ++ post
    /\ forallb isspace pre = true
    /\ forallb isspace post = true
    /\ trimmed result = true.
Proof.
  intros H. apply _get_secret_Ok in H.
  destruct H as (data & text & Hd & Ht & -> & _).
  destruct (strip_split text) as (pre & post & E & Hpre & Hpost).
  exists data, text, pre, post.
  repeat split; try assumption. apply strip_trimmed.
Qed.

Lemma get_secret_trims_the_ends_witness :
  _get_secret Sample.spaced_world (lit "vw-password") []
  = (Ok (lit "two words"),
     [AccessSecretVersion (lit "projects/my-project/secrets/vw-password/versions/latest")])
  /\ exists data text pre post,
      access_secret_version Sample.spaced_world
        (secret_name Sample.spaced_world (lit "vw-password")) = Ok data
      /\ Utf8.decode data = Some text
      /\ text = pre ++ lit "two words" ++ post
      /\ forallb isspace pre = true
      /\ forallb isspace post = true
      /\ trimmed (lit "two words") = true.
Proof.
  split; [reflexivity|].
  exact (get_secret_trims_the_ends Sample.spaced_world (lit "vw-password") []
           (lit "two words")
           [AccessSecretVersion
              (lit "projects/my-project/secrets/vw-password/versions/latest")]
           eq_refl).
Defined.

(** ** The run, path by path *)

Section RunPaths.

Variable w : World.

(** The initialization phase once the configuration is resolved and the
    client has fetched. *)
Lemma fetch_vehicles_connected config tr0 cc :
  _build_config_with_secrets w (lit "config.json") [] = (Ok config, tr0) ->
  CarConnectivity w config = Ok cc ->
  fetch_all cc = Ok tt ->
  (get_garage cc = Ok None ->
   fetch_vehicles w []
   = (Ok None,
      tr0 ++ connect_events config
      ++ [Print (Text (lit "Successfully connected, but no garage object was returned."))]))
  /\ (forall g,
         get_garage cc = Ok (Some g) ->
         (list_vehicles g = Ok [] ->
          fetch_vehicles w []
          = (Ok None,
             tr0 ++ connect_events config
             ++ [ListVehicles;
                 Print (Text (lit "Garage retrieved, but it contains no vehicles."))]))
         /\ (forall vs,
                list_vehicles g = Ok vs -> vs <> [] ->
                fetch_vehicles w []
                = (Ok (Some vs),
                   tr0 ++ connect_events config
                   ++ [ListVehicles; found_line (List.length vs)]))).
Proof.
  intros Hc Hcc Hf. unfold fetch_vehicles, connect_events, found_line.
  rewrite (bind_step _ _ _ _ _ Hc).
  unfold IO.bind, print, IO.call, IO.ret. rewrite Hcc, Hf. split.
  - intros ->. now rewrite <- !app_assoc.
  - intros g ->. split.
    + intros ->. now rewrite <- !app_assoc.
    + intros vs -> Hne. destruct vs as [|v vs]; [contradiction|].
      now rewrite <- !app_assoc.
Qed.

Lemma resolve_quiet path config tr0 :
  _build_config_with_secrets w path [] = (Ok config, tr0) ->
  clock_reads tr0 = O /\ store_writes tr0 = [].
Proof.
  intros H. destruct (emits_resolve w _ _ _ _ H) as (ext & -> & F).
  apply init_events_quiet. eapply Forall_impl; [|exact F].
  apply resolver_event_init.
Qed.

(** X10: when the client returns no garage, the run ends without error
    after one informational line; the clock is not read and the store is
    not called. *)
Theorem no_garage_short_circuit config tr0 cc :
  _build_config_with_secrets w (lit "config.json") [] = (Ok config, tr0) ->
  CarConnectivity w config = Ok cc ->
  fetch_all cc = Ok tt ->
  get_garage cc = Ok None ->
  exists tr',
    main w [] = (Ok tt, tr')
    /\ tr' = tr0 ++ connect_events config
             ++ [Print (Text (lit "Successfully connected, but no garage object was returned."))]
    /\ store_writes tr' = []
    /\ clock_reads tr' = O.
Proof.
  intros Hc Hcc Hf Hg.
  destruct (fetch_vehicles_connected _ _ _ Hc Hcc Hf) as [Hnone _].
  specialize (Hnone Hg). eexists. split; [exact (main_init_returns w _ _ Hnone)|].
  split; [reflexivity|].
  destruct (fetch_vehicles_quiet w _ _ Hnone) as [H1 H2]. now split.
Qed.

(** X11: when the garage lists no vehicle, the run ends without error
    after one informational line; the clock is not read and the store is
    not called. *)
Theorem no_vehicles_short_circuit config tr0 cc g :
  _build_config_with_secrets w (lit "config.json") [] = (Ok config, tr0) ->
  CarConnectivity w config = Ok cc ->
  fetch_all cc = Ok tt ->
  get_garage cc = Ok (Some g) ->
  list_vehicles g = Ok [] ->
  exists tr',
    main w [] = (Ok tt, tr')
    /\ tr' = tr0 ++ connect_events config
             ++ [ListVehicles;
                 Print (Text (lit "Garage retrieved, but it contains no vehicles."))]
    /\ store_writes tr' = []
    /\ clock_reads tr' = O.
Proof.
  intros Hc Hcc Hf Hg Hl.
  destruct (fetch_vehicles_connected _ _ _ Hc Hcc Hf) as [_ Hsome].
  destruct (Hsome g Hg) as [Hempty _]. specialize (Hempty Hl).
  eexists. split; [exact (main_init_returns w _ _ Hempty)|].
  split; [reflexivity|].
  destruct (fetch_vehicles_quiet w _ _ Hempty) as [H1 H2]. now split.
Qed.

(** X12: a run in which every collaborator answers: the client is built
    from the resolved configuration, the vehicles are counted, the clock is
    read once, one batch with a row per vehicle goes to the fixed table,
    and the line of success reports as many rows as there were vehicles. *)
Theorem successful_run config tr0 cc g vs rows :
  _build_config_with_secrets w (lit "config.json") [] = (Ok config, tr0) ->
  CarConnectivity w config = Ok cc ->
  fetch_all cc = Ok tt ->
  get_garage cc = Ok (Some g) ->
  list_vehicles g = Ok vs ->
  vs <> [] ->
  build_rows (utcnow w 0) vs [] = Ok rows ->
  insert_rows_json w (table_id w) rows = Ok [] ->
  main w []
  = (Ok tt,
     tr0 ++ connect_events config
     ++ [ListVehicles; found_line (List.length vs); Now;
         InsertRowsJson (table_id w) rows;
         loaded_line (List.length vs) (table_id w)])
  /\ List.length rows = List.length vs.
Proof.
  intros Hc Hcc Hf Hg Hl Hne Hb Hi.
  destruct (fetch_vehicles_connected _ _ _ Hc Hcc Hf) as [_ Hsome].
  destruct (Hsome g Hg) as [_ Hfound]. specialize (Hfound vs Hl Hne).
  destruct (fetch_vehicles_quiet w _ _ Hfound) as [Hclock _].
  destruct (build_rows_nonempty _ _ _ Hne Hb) as [Hrows F].
  assert (Hlen : List.length rows = List.length vs)
    by (symmetry; eapply Forall2_length; eassumption).
  split; [|exact Hlen].
  rewrite (main_loop w _ _ _ Hfound), Hclock, Hb, (insert_run w _ _ Hrows), Hi.
  unfold loaded_line. rewrite Hlen. now rewrite <- !app_assoc.
Qed.

(** X13: an exception of the store's insert call is not handled anywhere:
    the run raises it after the write attempt, and no error record is
    printed for it, whatever its class. *)
Theorem store_exception_propagates vs tr1 rows e :
  fetch_vehicles w [] = (Ok (Some vs), tr1) ->
  build_rows (utcnow w 0) vs [] = Ok rows ->
  insert_rows_json w (table_id w) rows = Raise e ->
  main w [] = (Raise e, tr1 ++ [Now; InsertRowsJson (table_id w) rows]).
Proof.
  intros Hf Hb Hi.
  destruct (fetch_vehicles_quiet w _ _ Hf) as [Hclock _].
  destruct (build_rows_nonempty _ _ _ (fetch_vehicles_nonempty w _ _ _ Hf) Hb)
    as [Hrows _].
  rewrite (main_loop w _ _ _ Hf), Hclock, Hb, (insert_run w _ _ Hrows), Hi.
  now rewrite <- app_assoc.
Qed.

End RunPaths.

Lemma no_garage_short_circuit_witness :
  _build_config_with_secrets (Sample.world_with Sample.garageless (Ok []))
    (lit "config.json") []
  = (Ok Sample.resolved_doc, Sample.resolve_trace)
  /\ main (Sample.world_with Sample.garageless (Ok [])) []
     = (Ok tt,
        Sample.resolve_trace ++ connect_events Sample.resolved_doc
        ++ [Print (Text (lit "Successfully connected, but no garage object was returned."))]).
Proof.
  split; [reflexivity|].
  destruct (no_garage_short_circuit (Sample.world_with Sample.garageless (Ok []))
              Sample.resolved_doc Sample.resolve_trace Sample.garageless
              eq_refl eq_refl eq_refl eq_refl) as (tr' & Hm & -> & _).
  exact Hm.
Defined.

Lemma no_vehicles_short_circuit_witness :
  _build_config_with_secrets (Sample.world_with (Sample.client []) (Ok []))
    (lit "config.json") []
  = (Ok Sample.resolved_doc, Sample.resolve_trace)
  /\ main (Sample.world_with (Sample.client []) (Ok [])) []
     = (Ok tt,
        Sample.resolve_trace ++ connect_events Sample.resolved_doc
        ++ [ListVehicles;
            Print (Text (lit "Garage retrieved, but it contains no vehicles."))]).
Proof.
  split; [reflexivity|].
  destruct (no_vehicles_short_circuit (Sample.world_with (Sample.client []) (Ok []))
              Sample.resolved_doc Sample.resolve_trace (Sample.client [])
              Sample.empty_garage eq_refl eq_refl eq_refl eq_refl eq_refl)
    as (tr' & Hm & -> & _).
  exact Hm.
Defined.

Lemma successful_run_witness :
  _build_config_with_secrets Sample.padded_world (lit "config.json") []
  = (Ok Sample.resolved_doc, Sample.resolve_trace)
  /\ Sample.fleet <> []
  /\ build_rows (utcnow Sample.padded_world 0) Sample.fleet [] = Ok Sample.fleet_rows
  /\ main Sample.padded_world []
     = (Ok tt,
        Sample.resolve_trace ++ connect_events Sample.resolved_doc
        ++ [ListVehicles; found_line 2; Now;
            InsertRowsJson (table_id Sample.padded_world) Sample.fleet_rows;
            loaded_line 2 (table_id Sample.padded_world)]).
Proof.
  assert (Hne : Sample.fleet <> []) by discriminate.
  split; [reflexivity|]. split; [exact Hne|]. split; [reflexivity|].
  exact (proj1 (successful_run Sample.padded_world Sample.resolved_doc
                  Sample.resolve_trace (Sample.client Sample.fleet)
                  {| list_vehicles := Ok Sample.fleet |} Sample.fleet Sample.fleet_rows
                  eq_refl eq_refl eq_refl eq_refl eq_refl Hne eq_refl eq_refl)).
Defined.

Lemma store_exception_propagates_witness :
  fetch_vehicles
    (Sample.world_with (Sample.client Sample.fleet) (Raise Sample.ServiceUnavailable)) []
  = (Ok (Some Sample.fleet), Sample.init_trace Sample.resolved_doc Sample.found_two)
  /\ main
       (Sample.world_with (Sample.client Sample.fleet) (Raise Sample.ServiceUnavailable))
       []
     = (Raise Sample.ServiceUnavailable,
        Sample.init_trace Sample.resolved_doc Sample.found_two
        ++ [Now; InsertRowsJson (lit "my-project.car_data.vehicle_status")
                   Sample.fleet_rows]).
Proof.
  split; [reflexivity|].
  exact (store_exception_propagates
           (Sample.world_with (Sample.client Sample.fleet)
              (Raise Sample.ServiceUnavailable))
           Sample.fleet (Sample.init_trace Sample.resolved_doc Sample.found_two)
           Sample.fleet_rows Sample.ServiceUnavailable eq_refl eq_refl eq_refl).
Defined.

(** ** What a run never does *)

Section RunInvariants.

Variable w : World.

Lemma resolver_event_init_phase ev : resolver_event ev -> init_phase_event ev.
Proof. destruct ev; simpl; tauto. Qed.

Lemma init_phase_event_init ev : init_phase_event ev -> init_event ev.
Proof. destruct ev as [[s|v]| | | | | | | |]; simpl; tauto. Qed.

Lemma emits_fetch_vehicles_lines : emits init_phase_event (fetch_vehicles w).
Proof.
  unfold fetch_vehicles.
  apply emits_bind.
  { eapply emits_weaken; [apply resolver_event_init_phase | apply emits_resolve]. }
  intros config. apply emits_bind; [apply emits_print; simpl; tauto|]. intros _.
  apply emits_bind; [now apply emits_call|]. intros cc.
  apply emits_bind; [now apply emits_call|]. intros _.
  apply emits_bind; [now apply emits_call|]. intros [g|].
  - apply emits_bind; [now apply emits_call|]. intros [|v vs].
    + apply emits_bind; [apply emits_print; simpl; tauto | intros _; apply emits_ret].
    + apply emits_bind; [|intros _; apply emits_ret].
      apply emits_print. simpl. right. right. right.
      exists (List.length (v :: vs)). reflexivity.
  - apply emits_bind; [apply emits_print; simpl; tauto | intros _; apply emits_ret].
Qed.

(** The shapes of the trace of a run: the events of the initialization
    phase, followed by nothing, by the record of the handler, by the clock
    reading alone (the loop raised), or by the clock reading and one write
    with at most one line after it. *)
Lemma main_cases r tr' :
  main w [] = (r, tr') ->
  exists tr1,
    Forall init_phase_event tr1
    /\ (tr' = tr1
        \/ (exists e, tr' = tr1 ++ [Print (Json (init_error_record e))])
        \/ tr' = tr1 ++ [Now]
        \/ exists vs rows tail,
            fetch_vehicles w [] = (Ok (Some vs), tr1)
            /\ build_rows (utcnow w 0) vs [] = Ok rows
            /\ rows <> []
            /\ tr' = tr1 ++ Now :: InsertRowsJson (table_id w) rows :: tail
            /\ (tail = []
                \/ tail = [loaded_line (List.length rows) (table_id w)]
                \/ exists errors, tail = [Print (Json (insert_error_record errors))])).
Proof.
  intros Hm.
  destruct (fetch_vehicles w []) as [[[vs|]|e] tr1] eqn:Hf;
    destruct (emits_fetch_vehicles_lines _ _ _ Hf) as (ext & Hext & F);
    cbn [app] in Hext; subst ext; exists tr1; (split; [exact F|]).
  - destruct (fetch_vehicles_quiet w _ _ Hf) as [Hclock _].
    rewrite (main_loop w _ _ _ Hf), Hclock in Hm.
    destruct (build_rows (utcnow w 0) vs []) as [rows|e] eqn:Hb.
    + destruct (build_rows_nonempty _ _ _ (fetch_vehicles_nonempty w _ _ _ Hf) Hb)
        as [Hne _].
      rewrite (insert_run w _ _ Hne) in Hm.
      right. right. right.
      destruct (insert_rows_json w (table_id w) rows) as [[|err errors]|e];
        inversion Hm; subst; rewrite <- app_assoc; cbn [app].
      * exists vs, rows, [loaded_line (List.length rows) (table_id w)].
        repeat split; try assumption. right. now left.
      * exists vs, rows, [Print (Json (insert_error_record (err :: errors)))].
        repeat split; try assumption. right. right. now eexists.
      * exists vs, rows, []. repeat split; try assumption. now left.
    + inversion Hm; subst. right. right. now left.
  - rewrite (main_init_returns w _ _ Hf) in Hm. inversion Hm; subst. now left.
  - rewrite (main_init_raises w _ _ _ Hf) in Hm. inversion Hm; subst.
    destruct (exn_is_Exception e); [right; left; now exists e | now left].
Qed.

Lemma init_phase_quiet tr1 :
  Forall init_phase_event tr1 -> clock_reads tr1 = O /\ store_writes tr1 = [].
Proof.
  intros F. apply init_events_quiet. eapply Forall_impl; [|exact F].
  apply init_phase_event_init.
Qed.

(** X14: a run writes at most once and reads the clock at most once; a
    write goes to the table [<project>.car_data.vehicle_status], and its
    batch is never empty. *)
Theorem one_batch_to_the_fixed_table r tr' :
  main w [] = (r, tr') ->
  (List.length (store_writes tr') <= 1)%nat
  /\ (clock_reads tr' <= 1)%nat
  /\ forall t rows,
      In (InsertRowsJson t rows) tr' ->
      t = fmt_optional (PROJECT_ID w) ++ lit ".car_data.vehicle_status"
      /\ rows <> []
      /\ store_writes tr' = [rows].
Proof.
  intros Hm. apply main_cases in Hm. destruct Hm as (tr1 & F & Hcases).
  destruct (init_phase_quiet _ F) as [Hclock Hquiet].
  assert (Hnone : forall t rows, ~ In (InsertRowsJson t rows) tr1).
  { intros t rows Hin. rewrite Forall_forall in F. exact (F _ Hin). }
  destruct Hcases as [-> | [(e & ->) | [-> | (vs & rows & tail & _ & _ & Hne & -> & Htail)]]].
  - rewrite Hclock, Hquiet. split; [simpl; lia|]. split; [lia|].
    intros t rows Hin. destruct (Hnone _ _ Hin).
  - rewrite store_writes_app, clock_reads_app, Hclock, Hquiet.
    split; [unfold store_writes; simpl; lia|].
    split; [unfold clock_reads; simpl; lia|].
    intros t rows Hin. apply in_app_or in Hin.
    destruct Hin as [Hin|[Hin|[]]]; [destruct (Hnone _ _ Hin) | discriminate Hin].
  - rewrite store_writes_app, clock_reads_app, Hclock, Hquiet.
    split; [unfold store_writes; simpl; lia|].
    split; [unfold clock_reads; simpl; lia|].
    intros t rows Hin. apply in_app_or in Hin.
    destruct Hin as [Hin|[Hin|[]]]; [destruct (Hnone _ _ Hin) | discriminate Hin].
  - assert (Hw : store_writes (tr1 ++ Now :: InsertRowsJson (table_id w) rows :: tail)
                 = [rows]
                 /\ clock_reads (tr1 ++ Now :: InsertRowsJson (table_id w) rows :: tail)
                    = 1%nat).
    { rewrite store_writes_app, clock_reads_app, Hclock, Hquiet.
      destruct Htail as [-> | [-> | (errors & ->)]]; split; reflexivity. }
    destruct Hw as [Hw Hc]. rewrite Hw, Hc.
    split; [simpl; lia|]. split; [lia|].
    intros t rows' Hin. apply in_app_or in Hin.
    destruct Hin as [Hin|[Hin|[Hin|Hin]]];
      [destruct (Hnone _ _ Hin) | discriminate Hin | |].
    + inversion Hin; subst. split; [reflexivity | split; [exact Hne | reflexivity]].
    + destruct Htail as [-> | [-> | (errors & ->)]];
        [destruct Hin | destruct Hin as [Hin|[]]; discriminate Hin
         | destruct Hin as [Hin|[]]; discriminate Hin].
Qed.

(** X15: [_insert_into_bigquery] answers an empty batch with the line
    ["No rows to insert."] and no call to the store, but no run reaches that
    branch: [main] never prints this line. *)
Theorem empty_batch_branch_is_dead :
  (forall tr,
      _insert_into_bigquery w [] tr
      = (Ok tt, tr ++ [Print (Text (lit "No rows to insert."))]))
  /\ forall r tr',
      main w [] = (r, tr') ->
      ~ In (Print (Text (lit "No rows to insert."))) tr'.
Proof.
  split; [reflexivity|].
  intros r tr' Hm Hin. apply main_cases in Hm. destruct Hm as (tr1 & F & Hcases).
  assert (Hinit : ~ In (Print (Text (lit "No rows to insert."))) tr1).
  { intros H1. rewrite Forall_forall in F. specialize (F _ H1). simpl in F.
    destruct F as [F | [F | [F | (n & F)]]]; discriminate F. }
  destruct Hcases as [-> | [(e & ->) | [-> | (vs & rows & tail & _ & _ & _ & -> & Htail)]]].
  - exact (Hinit Hin).
  - apply in_app_or in Hin.
    destruct Hin as [Hin|[Hin|[]]]; [exact (Hinit Hin) | discriminate Hin].
  - apply in_app_or in Hin.
    destruct Hin as [Hin|[Hin|[]]]; [exact (Hinit Hin) | discriminate Hin].
  - apply in_app_or in Hin.
    destruct Hin as [Hin|[Hin|[Hin|Hin]]];
      [exact (Hinit Hin) | discriminate Hin | discriminate Hin |].
    destruct Htail as [-> | [-> | (errors & ->)]].
    + destruct Hin.
    + destruct Hin as [Hin|[]]. unfold loaded_line in Hin. inversion Hin.
    + destruct Hin as [Hin|[]]. discriminate Hin.
Qed.

End RunInvariants.

Lemma one_batch_to_the_fixed_table_witness :
  main Sample.padded_world [] = (Ok tt, Sample.run_trace)
  /\ In (InsertRowsJson (lit "my-project.car_data.vehicle_status") Sample.fleet_rows)
        Sample.run_trace
  /\ (List.length (store_writes Sample.run_trace) <= 1)%nat
  /\ (clock_reads Sample.run_trace <= 1)%nat
  /\ store_writes Sample.run_trace = [Sample.fleet_rows].
Proof.
  assert (Hin : In (InsertRowsJson (lit "my-project.car_data.vehicle_status")
                      Sample.fleet_rows) Sample.run_trace).
  { unfold Sample.run_trace. apply in_or_app. right. right. left. reflexivity. }
  split; [reflexivity|]. split; [exact Hin|].
  destruct (one_batch_to_the_fixed_table Sample.padded_world (Ok tt) Sample.run_trace
              eq_refl) as (H1 & H2 & H3).
  split; [exact H1|]. split; [exact H2|].
  exact (proj2 (proj2 (H3 _ _ Hin))).
Defined.

Lemma empty_batch_branch_is_dead_witness :
  main Sample.padded_world [] = (Ok tt, Sample.run_trace)
  /\ ~ In (Print (Text (lit "No rows to insert."))) Sample.run_trace.
Proof.
  split; [reflexivity|].
  exact (proj2 (empty_batch_branch_is_dead Sample.padded_world) (Ok tt)
               Sample.run_trace eq_refl).
Defined.

(** ** More on the rows *)

Section RowFacts.

Variable w : World.

(** X16: a vehicle whose outside temperature is not a number (no value
    yet, or text) makes the run raise out of the loop: the subtraction
    fails, nothing is written to the store and nothing more is logged. *)
Theorem temperature_without_value_aborts vs tr1 v kelvin e0 :
  fetch_vehicles w [] = (Ok (Some vs), tr1) ->
  In v vs ->
  getpath v ["outside_temperature"; "value"] = Ok kelvin ->
  sub_float kelvin KELVIN_OFFSET = Raise e0 ->
  exists e,
    main w [] = (Raise e, tr1 ++ [Now])
    /\ store_writes (tr1 ++ [Now]) = [].
Proof.
  intros Hf Hv Hk Hsub.
  destruct (fetch_vehicles_quiet w _ _ Hf) as [Hclock Hquiet].
  rewrite (main_loop w _ _ _ Hf), Hclock.
  destruct (build_rows (utcnow w 0) vs []) as [rows|e] eqn:Hb.
  - exfalso. apply build_rows_Ok in Hb. destruct Hb as (new & _ & F).
    assert (Hrow : exists row, row_of (utcnow w 0) v = Ok row).
    { clear Hf. induction F as [|v0 row vs new Hr F IH]; [contradiction|].
      destruct Hv as [->|Hv]; [now exists row | now apply IH]. }
    destruct Hrow as (row & Hr).
    apply row_of_Ok in Hr. destruct Hr as (soc & _ & Hr). apply make_row_Ok in Hr.
    destruct Hr as (x1 & x2 & x3 & x4 & x5 & x6 & k & ext & x9 & x10 & x11
                    & _ & _ & _ & _ & _ & _ & Hk' & He & _).
    rewrite Hk in Hk'. inversion Hk'; subst k. rewrite Hsub in He. discriminate He.
  - exists e. split; [reflexivity|]. now rewrite store_writes_app, Hquiet.
Qed.

(** The values the subtraction rejects. *)
Lemma sub_float_rejects v c :
  match v with
  | PNone | PStr _ | PList _ | PDict _ | PObj _ _ => exists e, sub_float v c = Raise e
  | PFloat _ | PBool _ => exists x, sub_float v c = Ok x
  | PInt _ => True
  end.
Proof. destruct v as [| [|] | | | | | |]; try exact I; eexists; reflexivity. Qed.

(** X17: for a vehicle with an electric drive, the [soc] of its row is the
    [level.value] of the drive. *)
Theorem soc_of_electric_vehicle ts v d row :
  call0 v "get_electric_drive" = Ok d ->
  truthy d = true ->
  row_of ts v = Ok row ->
  exists level,
    getpath d ["level"; "value"] = Ok level
    /\ field row "soc" = Some level.
Proof.
  intros Hd Ht Hr. unfold row_of in Hr. res_bind Hr soc Hsoc.
  unfold soc_of in Hsoc. rewrite Hd in Hsoc. cbn [Res.bind] in Hsoc.
  rewrite Ht in Hsoc. exists soc. split; [exact Hsoc|].
  apply make_row_Ok in Hr.
  destruct Hr as (x1 & x2 & x3 & x4 & x5 & x6 & x7 & x8 & x9 & x10 & x11
                  & _ & _ & _ & _ & _ & _ & _ & _ & _ & _ & _ & ->).
  reflexivity.
Qed.

(** X18: every row of a submitted batch is a dict with the same twelve
    keys, in the order of the dict display, each of them once. *)
Theorem rows_share_the_schema r tr' rows :
  main w [] = (r, tr') ->
  In rows (store_writes tr') ->
  Forall (fun row => exists d, row = PDict d /\ keys d = row_keys) rows
  /\ NoDup row_keys.
Proof.
  intros Hm Hin. split.
  - apply main_cases in Hm. destruct Hm as (tr1 & F & Hcases).
    destruct (init_phase_quiet _ F) as [_ Hquiet].
    destruct Hcases as [-> | [(e & ->) | [-> | (vs & rows0 & tail & _ & Hb & _ & -> & Htail)]]].
    + rewrite Hquiet in Hin. destruct Hin.
    + rewrite store_writes_app, Hquiet in Hin. destruct Hin.
    + rewrite store_writes_app, Hquiet in Hin. destruct Hin.
    + assert (Hw : store_writes (tr1 ++ Now :: InsertRowsJson (table_id w) rows0 :: tail)
                   = [rows0]).
      { rewrite store_writes_app, Hquiet.
        destruct Htail as [-> | [-> | (errors & ->)]]; reflexivity. }
      rewrite Hw in Hin. destruct Hin as [<-|[]].
      apply build_rows_Ok in Hb. destruct Hb as (new & Hnew & F2).
      cbn [app] in Hnew. subst new. clear Hw Htail F.
      induction F2 as [|v row vs rows0 Hr F2 IH]; constructor; [|exact IH].
      apply row_of_Ok in Hr. destruct Hr as (soc & _ & Hr). apply make_row_Ok in Hr.
      destruct Hr as (x1 & x2 & x3 & x4 & x5 & x6 & x7 & x8 & x9 & x10 & x11
                      & _ & _ & _ & _ & _ & _ & _ & _ & _ & _ & _ & ->).
      eexists. split; reflexivity.
  - unfold row_keys. repeat constructor; cbv; intuition discriminate.
Qed.

End RowFacts.

Lemma temperature_without_value_aborts_witness :
  fetch_vehicles (Sample.world " hunter2 " Sample.cold_fleet []) []
  = (Ok (Some Sample.cold_fleet), Sample.init_trace Sample.resolved_doc Sample.found_two)
  /\ In Sample.car_without_temperature Sample.cold_fleet
  /\ getpath Sample.car_without_temperature ["outside_temperature"; "value"] = Ok PNone
  /\ exists e,
      main (Sample.world " hunter2 " Sample.cold_fleet []) []
      = (Raise e, Sample.init_trace Sample.resolved_doc Sample.found_two ++ [Now])
      /\ store_writes (Sample.init_trace Sample.resolved_doc Sample.found_two ++ [Now])
         = [].
Proof.
  assert (Hv : In Sample.car_without_temperature Sample.cold_fleet)
    by (right; left; reflexivity).
  split; [reflexivity|]. split; [exact Hv|]. split; [reflexivity|].
  exact (temperature_without_value_aborts
           (Sample.world " hunter2 " Sample.cold_fleet []) Sample.cold_fleet
           (Sample.init_trace Sample.resolved_doc Sample.found_two)
           Sample.car_without_temperature PNone
           (TypeError (lit "unsupported operand type(s) for -: 'NoneType' and 'float'"))
           eq_refl Hv eq_refl eq_refl).
Defined.

Lemma soc_of_electric_vehicle_witness :
  call0 Sample.electric_car "get_electric_drive"
  = Ok (Sample.electric_drive (PFloat 80%float))
  /\ truthy (Sample.electric_drive (PFloat 80%float)) = true
  /\ row_of (Sample.clock 0) Sample.electric_car = Ok Sample.electric_row
  /\ exists level,
      getpath (Sample.electric_drive (PFloat 80%float)) ["level"; "value"] = Ok level
      /\ field Sample.electric_row "soc" = Some level.
Proof.
  split; [reflexivity|]. split; [reflexivity|]. split; [reflexivity|].
  exact (soc_of_electric_vehicle (Sample.clock 0) Sample.electric_car
           (Sample.electric_drive (PFloat 80%float)) Sample.electric_row
           eq_refl eq_refl eq_refl).
Defined.

Lemma rows_share_the_schema_witness :
  main Sample.padded_world [] = (Ok tt, Sample.run_trace)
  /\ In Sample.fleet_rows (store_writes Sample.run_trace)
  /\ Forall (fun row => exists d, row = PDict d /\ keys d = row_keys) Sample.fleet_rows.
Proof.
  assert (Hin : In Sample.fleet_rows (store_writes Sample.run_trace))
    by (left; reflexivity).
  split; [reflexivity|]. split; [exact Hin|].
  exact (proj1 (rows_share_the_schema Sample.padded_world (Ok tt) Sample.run_trace
                  Sample.fleet_rows eq_refl Hin)).
Defined.

(** ** The records of a run *)

Section Records.

Variable w : World.

Lemma json_lines_app tr1 tr2 : json_lines (tr1 ++ tr2) = json_lines tr1 ++ json_lines tr2.
Proof. unfold json_lines. apply flat_map_app. Qed.

Lemma init_phase_no_records tr1 : Forall init_phase_event tr1 -> json_lines tr1 = [].
Proof.
  induction 1 as [|ev tr1 Hev F IH]; [reflexivity|].
  destruct ev as [[s|v]| | | | | | | |]; try exact IH. contradiction Hev.
Qed.

(** X19: a run prints at most one record, as its last event, and the record
    tells how the run ended: the record of the handler goes with the raise
    of an initialization error deriving from [Exception]; the record of the
    store's row errors goes with a run that ends without error. *)
Theorem records_tell_the_outcome r tr' v :
  main w [] = (r, tr') ->
  In v (json_lines tr') ->
  json_lines tr' = [v]
  /\ (exists tr1, tr' = tr1 ++ [Print (Json v)])
  /\ ((exists e tr1,
          fetch_vehicles w [] = (Raise e, tr1)
          /\ exn_is_Exception e = true
          /\ r = Raise e
          /\ v = init_error_record e)
      \/ (exists errors,
             errors <> []
             /\ r = Ok tt
             /\ v = insert_error_record errors)).
Proof.
  intros Hm Hin.
  destruct (fetch_vehicles w []) as [[[vs|]|e] tr1] eqn:Hf;
    destruct (emits_fetch_vehicles_lines w _ _ _ Hf) as (ext & Hext & F);
    cbn [app] in Hext; subst ext;
    pose proof (init_phase_no_records _ F) as Hnone.
  - destruct (fetch_vehicles_quiet w _ _ Hf) as [Hclock _].
    rewrite (main_loop w _ _ _ Hf), Hclock in Hm.
    destruct (build_rows (utcnow w 0) vs []) as [rows|e] eqn:Hb.
    + destruct (build_rows_nonempty _ _ _ (fetch_vehicles_nonempty w _ _ _ Hf) Hb)
        as [Hne _].
      rewrite (insert_run w _ _ Hne) in Hm.
      destruct (insert_rows_json w (table_id w) rows) as [[|err errors]|e];
        inversion Hm; subst; rewrite !json_lines_app, Hnone in Hin;
        cbn in Hin; try contradiction.
      destruct Hin as [<-|[]].
      rewrite !json_lines_app, Hnone. split; [reflexivity|].
      split.
      * exists (tr1 ++ [Now; InsertRowsJson (table_id w) rows]).
        now rewrite <- !app_assoc.
      * right. exists (err :: errors). repeat split. discriminate.
    + inversion Hm; subst. rewrite json_lines_app, Hnone in Hin. destruct Hin.
  - rewrite (main_init_returns w _ _ Hf) in Hm. inversion Hm; subst.
    rewrite Hnone in Hin. destruct Hin.
  - rewrite (main_init_raises w _ _ _ Hf) in Hm. inversion Hm; subst.
    destruct (exn_is_Exception e) eqn:He.
    + rewrite json_lines_app, Hnone in Hin. destruct Hin as [<-|[]].
      rewrite json_lines_app, Hnone. split; [reflexivity|].
      split; [now exists tr1|]. left. exists e, tr1. repeat split. exact He.
    + rewrite Hnone in Hin. destruct Hin.
Qed.

(** X20: a missing [GCP_PROJECT] is not noticed: references are asked for
    under the project ["None"], and a batch goes to the table
    ["None.car_data.vehicle_status"]. *)
Theorem missing_project_is_not_noticed :
  PROJECT_ID w = None ->
  (forall cfg k id tr,
      exists r,
        resolve_item w cfg (k, PStr (SECRET_PREFIX ++ id)) tr
        = (r, tr ++ [AccessSecretVersion (lit "projects/None/secrets/" ++ id
                                          ++ lit "/versions/latest")]))
  /\ (forall r tr' t rows,
         main w [] = (r, tr') ->
         In (InsertRowsJson t rows) tr' ->
         t = lit "None.car_data.vehicle_status").
Proof.
  intros Hp. split.
  - intros cfg k id tr.
    destruct (resolve_item w cfg (k, PStr (SECRET_PREFIX ++ id)) tr) as [r tr'] eqn:H.
    exists r. f_equal. apply resolve_item_any in H. rewrite H.
    unfold item_refs. cbn [flat_map snd]. unfold secret_name. rewrite Hp.
    reflexivity.
  - intros r tr' t rows Hm Hin.
    apply main_cases in Hm. destruct Hm as (tr1 & F & Hcases).
    assert (Hnone : ~ In (InsertRowsJson t rows) tr1).
    { intros H1. rewrite Forall_forall in F. exact (F _ H1). }
    assert (Ht : table_id w = lit "None.car_data.vehicle_status").
    { unfold table_id. rewrite Hp. reflexivity. }
    destruct Hcases as [-> | [(e & ->) | [-> | (vs & rows0 & tail & _ & _ & _ & -> & Htail)]]].
    + contradiction.
    + apply in_app_or in Hin. destruct Hin as [Hin|[Hin|[]]];
        [contradiction | discriminate Hin].
    + apply in_app_or in Hin. destruct Hin as [Hin|[Hin|[]]];
        [contradiction | discriminate Hin].
    + apply in_app_or in Hin.
      destruct Hin as [Hin|[Hin|[Hin|Hin]]]; [contradiction | discriminate Hin | |].
      * inversion Hin; subst. exact Ht.
      * destruct Htail as [-> | [-> | (errors & ->)]];
          [destruct Hin | destruct Hin as [Hin|[]]; discriminate Hin
           | destruct Hin as [Hin|[]]; discriminate Hin].
Qed.

End Records.

Lemma records_tell_the_outcome_witness :
  main Sample.rejecting_world []
  = (Ok tt,
     Sample.init_trace Sample.resolved_doc Sample.found_two
     ++ [Now;
         InsertRowsJson (table_id Sample.rejecting_world) Sample.fleet_rows;
         Print (Json (insert_error_record Sample.row_errors))])
  /\ json_lines
       (Sample.init_trace Sample.resolved_doc Sample.found_two
        ++ [Now;
            InsertRowsJson (table_id Sample.rejecting_world) Sample.fleet_rows;
            Print (Json (insert_error_record Sample.row_errors))])
     = [insert_error_record Sample.row_errors].
Proof.
  split; [reflexivity|].
  exact (proj1 (records_tell_the_outcome Sample.rejecting_world (Ok tt)
                  (Sample.init_trace Sample.resolved_doc Sample.found_two
                   ++ [Now;
                       InsertRowsJson (table_id Sample.rejecting_world)
                         Sample.fleet_rows;
                       Print (Json (insert_error_record Sample.row_errors))])
                  (insert_error_record Sample.row_errors)
                  eq_refl (or_introl eq_refl))).
Defined.

Lemma missing_project_is_not_noticed_witness :
  PROJECT_ID Sample.projectless_world = None
  /\ exists tr',
      main Sample.projectless_world [] = (Ok tt, tr')
      /\ In (AccessSecretVersion (lit "projects/None/secrets/vw-password/versions/latest"))
            tr'
      /\ forall t rows,
          In (InsertRowsJson t rows) tr' -> t = lit "None.car_data.vehicle_status".
Proof.
  split; [reflexivity|].
  destruct (main Sample.projectless_world []) as [r tr'] eqn:Hm.
  pose proof (proj2 (missing_project_is_not_noticed Sample.projectless_world eq_refl)
                r tr') as Ht.
  specialize (fun t rows => Ht t rows Hm).
  vm_compute in Hm. inversion Hm; subst. clear Hm.
  eexists. split; [reflexivity|]. split; [right; left; reflexivity | exact Ht].
Defined.
